(** * Piper TTS API demo: chunked synthesis client and synthesis server

    A shallow embedding of [client/piper_api_gui.py] (class
    [ChunkProcessorWorker] and the validation of
    [PiperAPIGUIWindow.start_synthesis]) and of [server/piper_api.py]
    (the [/synthesize] handler), with the properties proved about them. *)

From Stdlib Require Import Ascii String.
From Stdlib.Strings Require Import Byte.
From stdpp Require Import gmap strings list sorting pretty.

#[local] Set Warnings "-register-all".

Local Open Scope string_scope.
Local Open Scope list_scope.

(** ** Python strings

    A Python [str] is a sequence of Unicode code points. *)

Module PyStr.

Definition char := N.
Definition str := list char.

(** Reading a literal: every character of the literal is the code point of
    the same number. *)
Definition lit (s : string) : str := map N_of_ascii (list_ascii_of_string s).

Definition LF : char := 10%N.
Definition CR : char := 13%N.
Definition SP : char := 32%N.
Definition DOT : char := 46%N.

(** [str.isspace] on one code point: the table of CPython's
    [_PyUnicode_IsWhitespace]. *)
Definition isspace (c : char) : bool :=
  ((9 <=? c) && (c <=? 13) || (28 <=? c) && (c <=? 32) || (c =? 133)
   || (c =? 160) || (c =? 5760) || (8192 <=? c) && (c <=? 8202)
   || (c =? 8232) || (c =? 8233) || (c =? 8239) || (c =? 8287)
   || (c =? 12288))%N.

(** [s.replace(a, b)] for a one-character [a] and a one-character [b]. *)
Definition replace_char (a b : char) (s : str) : str :=
  map (fun c => if (c =? a)%N then b else c) s.

(** [s.replace(a, '')] for a one-character [a]. *)
Definition remove_char (a : char) (s : str) : str :=
  filter (fun c => c ≠ a) s.

Fixpoint lstrip (s : str) : str :=
  match s with
  | c :: s' => if isspace c then lstrip s' else s
  | [] => []
  end.

Definition rstrip (s : str) : str := reverse (lstrip (reverse s)).

(** [s.strip()] *)
Definition strip (s : str) : str := rstrip (lstrip s).

(** Puts [c] in front of the first fragment of a split. *)
Definition cons_first (c : char) (l : list str) : list str :=
  match l with
  | f :: fs => (c :: f) :: fs
  | [] => [[c]]
  end.

(** [s.split('. ')]: the occurrences of the two-character separator are
    found from left to right and do not overlap; the result has one more
    element than there are separators. *)
Fixpoint split_dot_space (s : str) : list str :=
  match s with
  | [] => [[]]
  | c :: s' =>
      match s' with
      | d :: s'' =>
          if (c =? DOT)%N && (d =? SP)%N then [] :: split_dot_space s''
          else cons_first c (split_dot_space s')
      | [] => [[c]]
      end
  end.

(** [s.startswith(p)] *)
Fixpoint startswith (p s : str) : bool :=
  match p, s with
  | [], _ => true
  | a :: p', b :: s' => (a =? b)%N && startswith p' s'
  | _ :: _, [] => false
  end.

End PyStr.

Import PyStr.

(** ** TextChunker: [ChunkProcessorWorker.__init__], lines 48-55 *)

Module Chunker.

(** [text_to_speak.replace('\n', ' ').replace('\r', '')] *)
Definition processed_text (text_to_speak : str) : str :=
  remove_char CR (replace_char LF SP text_to_speak).

(** The loop [for i, chunk in enumerate(potential_chunks)], started at
    index [i] with [n = len(potential_chunks)], appending to
    [text_chunks]. *)
Fixpoint chunk_loop (n i : nat) (potential_chunks : list str)
    (text_chunks : list str) : list str :=
  match potential_chunks with
  | [] => text_chunks
  | chunk :: rest =>
      let trimmed_chunk := strip chunk in
      let text_chunks' :=
        match trimmed_chunk with
        | [] => text_chunks
        | _ :: _ =>
            text_chunks ++
              [if bool_decide (i < n - 1) then trimmed_chunk ++ [DOT]
               else trimmed_chunk]
        end in
      chunk_loop n (S i) rest text_chunks'
  end.

Definition text_chunks (text_to_speak : str) : list str :=
  let potential_chunks := split_dot_space (processed_text text_to_speak) in
  chunk_loop (length potential_chunks) 0 potential_chunks [].

End Chunker.


(** ** Validation in [PiperAPIGUIWindow.start_synthesis], lines 677-702 *)

Module Gui.

Inductive start_outcome :=
  | AlreadyRunning
  | InvalidApiUrl
  | NoTextLoaded
  | NoOutputPath
  | WorkerStarted (text_chunks : list str).

(** [worker_running] is [self.worker_thread is not None and
    self.worker_thread.isRunning()]; the three strings are the contents of
    the text box and of the two entry fields. *)
Definition start_synthesis (worker_running : bool)
    (text_to_speak api_url_entry output_filepath : str) : start_outcome :=
  if worker_running then AlreadyRunning
  else
    let api_url := strip api_url_entry in
    if negb (startswith (lit "http") api_url) then InvalidApiUrl
    else match strip text_to_speak with
         | [] => NoTextLoaded
         | _ :: _ =>
             match strip output_filepath with
             | [] => NoOutputPath
             | _ :: _ => WorkerStarted (Chunker.text_chunks text_to_speak)
             end
         end.

End Gui.

(** ** The synthesis server: [server/piper_api.py], [synthesize] *)

Module Server.

(** A value as [request.get_json()] returns it. A float is kept only up to
    whether it is zero, which is all that its truth value needs. *)
Inductive pyval :=
  | PNone
  | PBool (b : bool)
  | PInt (z : Z)
  | PFloat (is_zero : bool)
  | PStr (s : str)
  | PList (l : list pyval)
  | PDict (items : list (str * pyval)).

(** Python's truth value, as [not text] uses it. *)
Definition truthy (v : pyval) : bool :=
  match v with
  | PNone => false
  | PBool b => b
  | PInt z => negb (z =? 0)%Z
  | PFloat is_zero => negb is_zero
  | PStr s => match s with [] => false | _ => true end
  | PList l => match l with [] => false | _ => true end
  | PDict items => match items with [] => false | _ => true end
  end.

(** [d.get(key)] on the items of a dict: [None] when the key is absent. *)
Fixpoint dict_get (key : str) (items : list (str * pyval)) : pyval :=
  match items with
  | [] => PNone
  | (k, v) :: rest => if decide (k = key) then v else dict_get key rest
  end.

Fixpoint dict_has (key : str) (items : list (str * pyval)) : bool :=
  match items with
  | [] => false
  | (k, _) :: rest => if decide (k = key) then true else dict_has key rest
  end.

(** What Flask hands to the view: [request.is_json] (the request's content
    type says JSON) and the parse of the body by [request.get_json()],
    [None] when the body does not parse. *)
Record request := {
  is_json : bool;
  parsed_body : option pyval;
}.

(** What running Piper does: [subprocess.Popen] may raise, otherwise the
    process ends with a return code and its two output streams. The text
    of [stderr] is given decoded and stripped. *)
Inductive piper_run :=
  | PopenFileNotFound
  | PopenRaises (e : str)
  | PiperExits (returncode : Z) (stdout_data : list Byte.byte) (stderr_text : str).

Inductive response :=
  | Jsonify (body : pyval) (status : Z)
  | SendFile (audio : list Byte.byte)
  | HttpException (status : Z).

(** The result of one request: the response, and how many times
    [subprocess.Popen] was called. *)
Record handled := {
  resp : response;
  popen_calls : nat;
}.

Definition error_body (msg : str) : pyval := PDict [(lit "error", PStr msg)].

Definition no_call (r : response) : handled :=
  {| resp := r; popen_calls := 0 |}.

(** [text[:50]] in the log line 56 and [text.encode('utf-8')] in line 77
    need a [str]; the slice also works on a list. *)
Definition sliceable (v : pyval) : bool :=
  match v with PStr _ | PList _ => true | _ => false end.

(** A surrogate code point, U+D800 to U+DFFF: a [str] may hold one on its
    own, as [json.loads] makes one of an escape like \ud800. *)
Definition is_surrogate (c : char) : bool := ((55296 <=? c) && (c <=? 57343))%N.

(** Where the first surrogate of a string is, counted from [i], and the
    string from there on. *)
Fixpoint first_surrogate (s : str) (i : nat) : option (nat * str) :=
  match s with
  | [] => None
  | c :: s' => if is_surrogate c then Some (i, s) else first_surrogate s' (S i)
  end.

(** How many surrogates a string begins with. *)
Fixpoint surrogate_run (s : str) : nat :=
  match s with
  | c :: s' => if is_surrogate c then S (surrogate_run s') else 0
  | [] => 0
  end.

Definition hex_digit (n : N) : char := (if n <? 10 then 48 + n else 87 + n)%N.

(** [%04x] *)
Definition hex4 (c : char) : str :=
  map hex_digit [(c / 4096) mod 16; (c / 256) mod 16; (c / 16) mod 16; c mod 16]%N.

(** [text.encode('utf-8')] of line 77 raises UnicodeEncodeError on a string
    that holds a surrogate: the text of the exception, which names the
    first run of surrogates, or [None] when the string encodes. *)
Definition encode_error (s : str) : option str :=
  match first_surrogate s 0 with
  | None => None
  | Some (start, rest) =>
      Some (match rest with
            | c :: _ =>
                if decide (surrogate_run rest = 1) then
                  lit "'utf-8' codec can't encode character '\u" ++ hex4 c
                  ++ lit "' in position " ++ lit (pretty start)
                  ++ lit ": surrogates not allowed"
                else
                  lit "'utf-8' codec can't encode characters in position "
                  ++ lit (pretty start) ++ lit "-"
                  ++ lit (pretty (start + surrogate_run rest - 1))
                  ++ lit ": surrogates not allowed"
            | [] => []
            end)
  end.

Definition run_piper (piper : piper_run) (text : pyval) : handled :=
  match piper with
  | PopenFileNotFound =>
      {| resp := Jsonify (error_body
           (lit "Server configuration error: Piper executable not found")) 500;
         popen_calls := 1 |}
  | PopenRaises e =>
      {| resp := Jsonify (error_body
           (lit "An unexpected error occurred on the server: " ++ e)) 500;
         popen_calls := 1 |}
  | PiperExits returncode stdout_data stderr_text =>
      match text with
      | PStr s =>
          match encode_error s with
          | Some e =>
              (* [text.encode] raises UnicodeEncodeError, caught in line 102 *)
              {| resp := Jsonify (error_body
                   (lit "An unexpected error occurred on the server: " ++ e)) 500;
                 popen_calls := 1 |}
          | None =>
              if negb (returncode =? 0)%Z then
                {| resp := Jsonify (error_body
                     (lit "Piper failed: " ++ stderr_text)) 500;
                   popen_calls := 1 |}
              else match stdout_data with
                   | [] =>
                       {| resp := Jsonify (error_body
                            (lit "Piper produced no audio data")) 500;
                          popen_calls := 1 |}
                   | _ :: _ => {| resp := SendFile stdout_data; popen_calls := 1 |}
                   end
          end
      | _ =>
          (* [text.encode] raises AttributeError, caught in line 102 *)
          {| resp := Jsonify (error_body
               (lit "An unexpected error occurred on the server: "
                ++ lit "'list' object has no attribute 'encode'")) 500;
             popen_calls := 1 |}
      end
  end.

Definition synthesize (piper : piper_run) (req : request) : handled :=
  if negb (is_json req) then
    no_call (Jsonify (error_body (lit "Request must be JSON")) 400)
  else
    match parsed_body req with
    | None => no_call (HttpException 400)   (* [get_json] raises BadRequest *)
    | Some (PDict items) =>
        let text := dict_get (lit "text") items in
        if negb (truthy text) then
          no_call (Jsonify (error_body (lit "Missing 'text' in JSON payload")) 400)
        else if negb (sliceable text) then
          no_call (HttpException 500)       (* [text[:50]] raises TypeError *)
        else run_piper piper text
    | Some _ => no_call (HttpException 500) (* [data.get] raises AttributeError *)
    end.

End Server.

(** ** The worker: [ChunkProcessorWorker] *)

Module Worker.

(** Log severities, lines 22-25. *)
Definition INFO : Z := 0.
Definition WARNING : Z := 1.
Definition ERROR : Z := 2.
Definition CRITICAL : Z := 3.

(** The Qt signals of the class, lines 30-42, as the values emitted. *)
Inductive signal :=
  | log_message (msg : string) (severity : Z)
  | synthesis_started
  | synthesis_finished
  | progress_update (current_step total_steps : nat) (msg : string)
  | final_output_ready (p : string)
  | critical_error (msg : string).

(** The disk: the files that exist, each with its content. *)
Abbreviation filesystem := (gmap string (list Byte.byte)).

Definition exists_ (fs : filesystem) (p : string) : bool :=
  bool_decide (is_Some (fs !! p)).

Definition getsize (fs : filesystem) (p : string) : nat :=
  match fs !! p with Some d => length d | None => 0 end.

(** What the operating system refuses: [open(p, 'wb')] and [os.remove(p)]
    raise with the given text where the function returns one. *)
Record os_env := {
  open_error : string → option string;
  remove_error : string → option string;
}.

(** The value of [self._stop_requested] as a thread other than the writer
    sees it at its [k]-th reading: the flag goes from [False] to [True]
    once, and is seen from reading [stop_from] on. *)
Definition flag_at (stop_from : option nat) (k : nat) : bool :=
  match stop_from with
  | Some t => bool_decide (t ≤ k)%nat
  | None => false
  end.

Fixpoint zeros (k : nat) : string :=
  match k with
  | 0 => ""
  | S k' => String "0" (zeros k')
  end.

(** [{chunk_num:04d}]: the decimal digits, with zeros in front up to the
    width. *)
Definition zfill (width : nat) (s : string) : string :=
  zeros (width - String.length s) +:+ s.

Definition fmt04d (n : nat) : string := zfill 4 (pretty n).

(** [f"{self.temp_base_name}_{chunk_num:04d}.wav"], line 88 *)
Definition temp_output_path (temp_base_name : string) (chunk_num : nat) : string :=
  temp_base_name +:+ "_" +:+ fmt04d chunk_num +:+ ".wav".

(** A signal that reports an error: a log line of severity [ERROR] or
    above, or [critical_error]. *)
Definition is_error_report (s : signal) : bool :=
  match s with
  | log_message _ severity => (ERROR <=? severity)%Z
  | critical_error _ => true
  | _ => false
  end.

(** *** ChunkFetcher: [_synthesize_chunk], lines 179-263 *)

(** The answer of the endpoint: the status, the body as [iter_content]
    yields it in blocks, an exception raised inside the download loop once
    these blocks are through (by [iter_content] or by [f.write]), and what
    lines 237-238 read of an error answer. *)
Record http_response := {
  status_code : Z;
  content_blocks : list (list Byte.byte);
  stream_error : option string;
  json_error : option string;
  text : string;
}.

(** What [requests.post] does. *)
Inductive post_outcome :=
  | RaisesTimeout
  | RaisesRequestException (e : string)
  | RaisesException (e : string)
  | Responds (r : http_response).

Record fetched := {
  returned : option string;
  fs_after : filesystem;
  logged : list signal;
}.

(** The download loop of lines 205-210 from block [i] on, [k] readings of
    the flag made so far: the number of readings made, whether the loop
    was left by [break], and the bytes written. *)
Fixpoint download (stop_from : option nat) (k i : nat)
    (blocks : list (list Byte.byte)) (written : list Byte.byte)
    : nat * bool * list Byte.byte :=
  match blocks with
  | [] => (k, false, written)
  | audio_chunk :: rest =>
      if bool_decide (i mod 10 = 0) then
        if flag_at stop_from k then (S k, true, written)
        else download stop_from (S k) (S i) rest (written ++ audio_chunk)
      else download stop_from k (S i) rest (written ++ audio_chunk)
  end.

(** [response.json().get('error', response.text[:200])], with the bare
    [except] of line 238. *)
Definition error_detail (r : http_response) : string :=
  match json_error r with
  | Some e => e
  | None => substring 0 200 (text r)
  end.

Definition _synthesize_chunk (env : os_env) (stop_from : option nat)
    (requests_post : str → post_outcome)
    (chunk_num : nat) (chunk_text : str) (temp_output_path : string)
    (fs : filesystem) : fetched :=
  let n := pretty chunk_num in
  if flag_at stop_from 0 then
    {| returned := None; fs_after := fs;
       logged := [log_message ("Skipping chunk " +:+ n +:+ " due to stop request.") WARNING] |}
  else
    let l0 := [log_message ("Starting request for chunk " +:+ n +:+ "...") INFO] in
    match requests_post chunk_text with
    | RaisesTimeout =>
        {| returned := None; fs_after := fs;
           logged := l0 ++ [log_message
             ("API call timed out for chunk " +:+ n +:+ " (timeout=60s).") ERROR] |}
    | RaisesRequestException e =>
        if flag_at stop_from 1 then
          {| returned := None; fs_after := fs;
             logged := l0 ++ [log_message
               ("Network error for chunk " +:+ n +:+ " ignored due to stop request.")
               WARNING] |}
        else
          {| returned := None; fs_after := fs;
             logged := l0 ++ [log_message
               ("Network error during chunk " +:+ n +:+ ": " +:+ e) ERROR] |}
    | RaisesException e =>
        if flag_at stop_from 1 then
          {| returned := None; fs_after := fs;
             logged := l0 ++ [log_message
               ("Unexpected error for chunk " +:+ n +:+ " ignored due to stop request.")
               WARNING] |}
        else
          {| returned := None; fs_after := fs;
             logged := l0 ++ [log_message
               ("Unexpected error processing chunk " +:+ n +:+ ": " +:+ e) ERROR] |}
    | Responds r =>
        if flag_at stop_from 1 then
          {| returned := None; fs_after := fs;
             logged := l0 ++ [log_message
               ("Ignoring response for chunk " +:+ n +:+ " due to stop request.")
               WARNING] |}
        else if bool_decide (status_code r = 200%Z) then
          let saving_failed (e : string) :=
            log_message ("Error saving audio for chunk " +:+ n +:+ ": " +:+ e) ERROR in
          match open_error env temp_output_path with
          | Some e =>
              {| returned := None; fs_after := fs; logged := l0 ++ [saving_failed e] |}
          | None =>
              let '(k, broken, written) :=
                download stop_from 2 0 (content_blocks r) [] in
              let fs1 := <[temp_output_path := written]> fs in
              let l1 := l0 ++
                (if broken then
                   [log_message ("Stopping download for chunk " +:+ n +:+ "...") WARNING]
                 else []) in
              match (if broken then None else stream_error r) with
              | Some e =>
                  {| returned := None; fs_after := fs1; logged := l1 ++ [saving_failed e] |}
              | None =>
                  if flag_at stop_from k then
                    let stopped :=
                      log_message ("Download stopped for chunk " +:+ n +:+ ".") WARNING in
                    if exists_ fs1 temp_output_path then
                      match remove_error env temp_output_path with
                      | Some e =>
                          {| returned := None; fs_after := fs1;
                             logged := l1 ++ [log_message
                               ("Error removing partial file for chunk " +:+ n
                                +:+ ": " +:+ e) ERROR; stopped] |}
                      | None =>
                          {| returned := None;
                             fs_after := delete temp_output_path fs1;
                             logged := l1 ++ [stopped] |}
                      end
                    else {| returned := None; fs_after := fs1; logged := l1 ++ [stopped] |}
                  else if exists_ fs1 temp_output_path
                          && bool_decide (0 < getsize fs1 temp_output_path) then
                    {| returned := Some temp_output_path; fs_after := fs1;
                       logged := l1 ++ [log_message
                         ("Chunk " +:+ n +:+ " saved successfully.") INFO] |}
                  else
                    let l2 := l1 ++ [log_message
                      ("Chunk " +:+ n +:+ " resulted in empty/missing file.") ERROR] in
                    if exists_ fs1 temp_output_path then
                      match remove_error env temp_output_path with
                      | Some e =>
                          {| returned := None; fs_after := fs1;
                             logged := l2 ++ [saving_failed e] |}
                      | None =>
                          {| returned := None;
                             fs_after := delete temp_output_path fs1; logged := l2 |}
                      end
                    else {| returned := None; fs_after := fs1; logged := l2 |}
              end
          end
        else
          {| returned := None; fs_after := fs;
             logged := l0 ++ [log_message
               ("API Error for chunk " +:+ n +:+ ": Status " +:+ pretty (status_code r)
                +:+ ". Detail: " +:+ error_detail r) ERROR] |}
    end.

(** *** TempArtifactJanitor: [_cleanup_temp_files], lines 301-313 *)

(** The loop of lines 306-312: the disk, [deleted_count] and the errors
    logged. *)
Fixpoint delete_loop (env : os_env) (files_to_delete : list string)
    (fs : filesystem) (deleted_count : nat) : filesystem * nat * list signal :=
  match files_to_delete with
  | [] => (fs, deleted_count, [])
  | temp_file :: rest =>
      if exists_ fs temp_file then
        match remove_error env temp_file with
        | Some e =>
            let '(fs', count, l) := delete_loop env rest fs deleted_count in
            (fs', count,
             log_message ("Error deleting temporary file " +:+ temp_file +:+ ": " +:+ e)
               ERROR :: l)
        | None => delete_loop env rest (delete temp_file fs) (S deleted_count)
        end
      else delete_loop env rest fs deleted_count
  end.

Definition _cleanup_temp_files (env : os_env) (files_to_delete : list string)
    (fs : filesystem) : filesystem * list signal :=
  match files_to_delete with
  | [] => (fs, [])
  | _ :: _ =>
      let '(fs', deleted_count, l) := delete_loop env files_to_delete fs 0 in
      (fs',
       [log_message ("Cleaning up " +:+ pretty (length files_to_delete)
                     +:+ " temporary files...") INFO]
       ++ l ++
       [log_message ("Deleted " +:+ pretty deleted_count +:+ " temporary files.") INFO])
  end.

(** *** AudioStitcher: [_combine_wav_files], lines 266-299 *)

(** [Wave_read.getparams()]: the named tuple of the [wave] module. *)
Record wave_params := {
  nchannels : Z;
  sampwidth : Z;
  framerate : Z;
  nframes : Z;
  comptype : string;
  compname : string;
}.

Global Instance wave_params_eq_dec : EqDecision wave_params.
Proof. solve_decision. Defined.


Record combined := {
  raised : option string;
  fs_combined : filesystem;
  combine_log : list signal;
}.

Section Job.

(** The [wave] module of the Python library is not part of the
    repository: reading a file's bytes gives [getparams()] and
    [readframes(getnframes())] or raises, and closing a written file with
    the parameters set and the frames written leaves these bytes. *)
Variable wave_read : list Byte.byte → string + wave_params * list Byte.byte.
Variable wave_write : wave_params → list Byte.byte → list Byte.byte.

Variable env : os_env.

(** [wave.open(filename, 'rb')] followed by the reads. *)
Definition wave_open_read (fs : filesystem) (filename : string)
    : string + wave_params * list Byte.byte :=
  match fs !! filename with
  | Some data => wave_read data
  | None => inl ("[Errno 2] No such file or directory: '" +:+ filename +:+ "'")
  end.

(** [os.path.exists(f) and os.path.getsize(f) > 0], line 272 *)
Definition valid_file (fs : filesystem) (f : string) : bool :=
  exists_ fs f && bool_decide (0 < getsize fs f)%nat.

(** The loop of lines 288-296 with the frames written so far: the
    exception that ends it, if any, the frames written, the warnings. *)
Fixpoint write_loop (params : wave_params) (fs : filesystem)
    (valid_input_files : list string) (frames_written : list Byte.byte)
    : option string * list Byte.byte * list signal :=
  match valid_input_files with
  | [] => (None, frames_written, [])
  | filename :: rest =>
      match wave_open_read fs filename with
      | inl e => (Some e, frames_written, [])
      | inr (p, frames) =>
          let '(err, written, l) :=
            write_loop params fs rest (frames_written ++ frames) in
          (err, written,
           (if decide (p ≠ params) then
              [log_message ("Warning: Parameters mismatch in " +:+ filename) WARNING]
            else []) ++ l)
      end
  end.

Definition _combine_wav_files (input_files : list string) (output_file : string)
    (fs : filesystem) : combined :=
  match input_files with
  | [] =>
      {| raised := Some "No input files provided for combining.";
         fs_combined := fs; combine_log := [] |}
  | _ :: _ =>
      let valid_input_files := filter (λ f, valid_file fs f) input_files in
      match valid_input_files with
      | [] =>
          {| raised := Some "No valid input audio files found to combine.";
             fs_combined := fs; combine_log := [] |}
      | first :: _ =>
          let l0 := [log_message ("Combining " +:+ pretty (length valid_input_files)
                                  +:+ " valid audio chunks...") INFO] in
          match wave_open_read fs first with
          | inl e => {| raised := Some e; fs_combined := fs; combine_log := l0 |}
          | inr (params, _) =>
              match open_error env output_file with
              | Some e => {| raised := Some e; fs_combined := fs; combine_log := l0 |}
              | None =>
                  (* the output is opened, which empties it; it gets its
                     bytes when it is closed in the [finally] *)
                  let fs1 := <[output_file := []]> fs in
                  let '(err, written, l) :=
                    write_loop params fs1 valid_input_files [] in
                  {| raised := err;
                     fs_combined := <[output_file := wave_write params written]> fs1;
                     combine_log := l0 ++ l |}
              end
          end
      end
  end.

(** *** Dispatcher and ResultCollector: [run], lines 66-177

    [run] hands one task per chunk to a thread pool and then works through
    the futures in the order in which they complete. What the threads
    and the caller do meanwhile is given to the model as a [schedule]:
    what becomes of each task, in which order the futures are yielded,
    and from which reading on each thread sees the stop flag set. The
    flag is only ever set during a run, so each thread sees it unset up to
    some reading and set from there on. A statement proved for every
    schedule holds for every interleaving of the threads. *)

(** What becomes of the task submitted for a chunk: it runs
    [_synthesize_chunk], seeing the stop flag from its reading [stop_from]
    on and getting [requests_post] from the network; or its future is
    cancelled before it starts; or an exception leaves it. *)
Inductive task_fate :=
  | Runs (stop_from : option nat) (requests_post : str → post_outcome)
  | Cancelled
  | Crashes (e : string).

(** What [future.result()] does. *)
Inductive future_outcome :=
  | Result (temp_file_path : option string)
  | CancelledError
  | Exception_ (exc : string).

(** What the run does not decide itself: from which of the collector's
    readings of the flag a [stop()] of the caller is seen, the fate of
    each task, the order in which [as_completed] yields the futures (as
    chunk indices), and for the output directory of line 151 its name,
    whether it exists and the error of [os.makedirs], if any. *)
Record schedule := {
  caller_stop : option nat;
  fates : nat → task_fate;
  completion_order : list nat;
  output_dir : string;
  output_dir_exists : bool;
  makedirs_error : option string;
}.

(** The fields of the worker set by [__init__], lines 50-64. *)
Record worker := {
  text_chunks : list str;
  api_url : str;
  final_output_filepath : string;
  max_workers : nat;
  temp_base_name : string;
}.

(** [__init__]; the base name of line 64 depends on the temporary
    directory and the clock and is given. *)
Definition init (api_url text_to_speak : str) (output_filepath base_name : string)
    : worker :=
  {| text_chunks := Chunker.text_chunks text_to_speak;
     api_url := api_url;
     final_output_filepath := output_filepath;
     max_workers := 12;
     temp_base_name := base_name |}.

(** The state of the thread that runs [run]: the dict [results] in
    insertion order, the counter, whether this thread has set
    [_stop_requested] itself, how often it has read the flag, and the
    signals it has emitted. *)
Record collector := {
  results : list (nat * string);
  chunks_processed : nat;
  stop_set : bool;
  reads : nat;
  emitted : list signal;
}.

Definition emit (c : collector) (s : signal) : collector :=
  {| results := results c; chunks_processed := chunks_processed c;
     stop_set := stop_set c; reads := reads c; emitted := emitted c ++ [s] |}.

(** Reading [self._stop_requested] in the thread of [run]. *)
Definition read_stop (caller_stop : option nat) (c : collector) : bool * collector :=
  (stop_set c || flag_at caller_stop (reads c),
   {| results := results c; chunks_processed := chunks_processed c;
      stop_set := stop_set c; reads := S (reads c); emitted := emitted c |}).

Definition set_stop (c : collector) : collector :=
  {| results := results c; chunks_processed := chunks_processed c;
     stop_set := true; reads := reads c; emitted := emitted c |}.

(** [results[chunk_index] = temp_file_path] on a dict in insertion order. *)
Fixpoint dict_set (k : nat) (v : string) (d : list (nat * string))
    : list (nat * string) :=
  match d with
  | [] => [(k, v)]
  | (k', v') :: rest =>
      if decide (k' = k) then (k, v) :: rest else (k', v') :: dict_set k v rest
  end.

Fixpoint dict_lookup (k : nat) (d : list (nat * string)) : option string :=
  match d with
  | [] => None
  | (k', v) :: rest => if decide (k' = k) then Some v else dict_lookup k rest
  end.

Definition record_success (c : collector) (chunk_index : nat)
    (temp_file_path : string) (total_chunks : nat) : collector :=
  let processed := S (chunks_processed c) in
  {| results := dict_set chunk_index temp_file_path (results c);
     chunks_processed := processed;
     stop_set := stop_set c; reads := reads c;
     emitted := emitted c ++
       [progress_update processed (total_chunks + 1)
          ("Completed chunk " +:+ pretty processed +:+ "/" +:+ pretty total_chunks)] |}.

(** The submission loop, lines 82-91: how many chunks were submitted. *)
Fixpoint submit_loop (caller_stop : option nat) (chunks : list str)
    (submitted : nat) (c : collector) : nat * collector :=
  match chunks with
  | [] => (submitted, c)
  | _ :: rest =>
      let '(stop, c1) := read_stop caller_stop c in
      if stop then
        (submitted,
         emit c1 (log_message "Stop requested before submitting all chunks." WARNING))
      else submit_loop caller_stop rest (S submitted) c1
  end.

(** The tasks of the submitted chunks from index [i] on: what each future
    holds, the disk once all of them are through, and what each logged. *)
Fixpoint run_tasks (w : worker) (fate : nat → task_fate) (i : nat)
    (chunks : list str) (fs : filesystem)
    : list future_outcome * filesystem * list (list signal) :=
  match chunks with
  | [] => ([], fs, [])
  | chunk :: rest =>
      let chunk_num := i + 1 in
      let '(outcome, fs1, l) :=
        match fate i with
        | Runs stop_from requests_post =>
            let r := _synthesize_chunk env stop_from requests_post chunk_num chunk
                       (temp_output_path (temp_base_name w) chunk_num) fs in
            (Result (returned r), fs_after r, logged r)
        | Cancelled => (CancelledError, fs, [])
        | Crashes e => (Exception_ e, fs, [])
        end in
      let '(outcomes, fs2, ls) := run_tasks w fate (S i) rest fs1 in
      (outcome :: outcomes, fs2, l :: ls)
  end.

(** [if temp_file_path:] *)
Definition path_truthy (r : option string) : option string :=
  match r with
  | Some "" => None
  | Some p => Some p
  | None => None
  end.

(** The loop over [as_completed], lines 94-129. *)
Fixpoint collect_loop (caller_stop : option nat) (total_chunks : nat)
    (futures : list future_outcome) (order : list nat) (c : collector)
    : collector :=
  match order with
  | [] => c
  | chunk_index :: rest =>
      let '(stop, c1) := read_stop caller_stop c in
      if stop then
        collect_loop caller_stop total_chunks futures rest
          (emit c1 (log_message "Stop requested, cancelling pending tasks..." WARNING))
      else
        let chunk_num := chunk_index + 1 in
        match futures !! chunk_index with
        | None => collect_loop caller_stop total_chunks futures rest c1
        | Some (Result r) =>
            match path_truthy r with
            | Some temp_file_path =>
                collect_loop caller_stop total_chunks futures rest
                  (record_success c1 chunk_index temp_file_path total_chunks)
            | None =>
                let '(stop2, c2) := read_stop caller_stop c1 in
                if negb stop2 then
                  set_stop
                    (emit (emit c2
                       (log_message ("Chunk " +:+ pretty chunk_num
                          +:+ " failed (see previous errors). Aborting.") ERROR))
                       (critical_error ("Synthesis failed on chunk "
                          +:+ pretty chunk_num +:+ ". Aborting.")))
                else collect_loop caller_stop total_chunks futures rest c2
            end
        | Some CancelledError =>
            collect_loop caller_stop total_chunks futures rest
              (emit c1 (log_message ("Chunk " +:+ pretty chunk_num
                                     +:+ " was cancelled.") WARNING))
        | Some (Exception_ exc) =>
            let c2 := emit c1 (log_message ("Chunk " +:+ pretty chunk_num
                          +:+ " generated an exception: " +:+ exc) ERROR) in
            let '(stop2, c3) := read_stop caller_stop c2 in
            if negb stop2 then
              set_stop (emit c3 (critical_error ("Error processing chunk "
                          +:+ pretty chunk_num +:+ ": " +:+ exc)))
            else c3
        end
  end.

Record finished := {
  final_fs : filesystem;
  run_signals : list signal;
  task_logs : list (list signal);
}.

(** [[results[i] for i in sorted(results.keys())]], line 145 *)
Definition ordered_temp_files (results : list (nat * string)) : list string :=
  omap (λ i, dict_lookup i results) (merge_sort (≤)%nat (results.*1)).

(** Post-processing, lines 131-177, on the disk the tasks have left. *)
Definition post_process (s : schedule) (w : worker) (c : collector)
    (fs : filesystem) (logs : list (list signal)) : finished :=
  let total_chunks := length (text_chunks w) in
  let created_temp_files := (results c).*2 in
  let '(stop, c1) := read_stop (caller_stop s) c in
  if stop || bool_decide (length (results c) < total_chunks)%nat then
    let c2 := emit c1 (log_message "Synthesis aborted or failed before completion."
                         WARNING) in
    let '(fs', l) := _cleanup_temp_files env created_temp_files fs in
    {| final_fs := fs'; run_signals := emitted c2 ++ l ++ [synthesis_finished];
       task_logs := logs |}
  else
    let temp_files := ordered_temp_files (results c) in
    let c2 := emit (emit c1
      (progress_update (total_chunks + 1) (total_chunks + 1) "Combining audio chunks..."))
      (log_message "All chunks synthesized successfully. Combining audio..." INFO) in
    let combine (c3 : collector) :=
      let r := _combine_wav_files temp_files (final_output_filepath w) fs in
      let done :=
        match raised r with
        | None =>
            [log_message ("Successfully combined audio to " +:+ final_output_filepath w)
               INFO;
             final_output_ready (final_output_filepath w)]
        | Some e =>
            [log_message ("Error combining audio files: " +:+ e) CRITICAL;
             critical_error ("Error combining audio files: " +:+ e)]
        end in
      let '(fs', l) := _cleanup_temp_files env temp_files (fs_combined r) in
      {| final_fs := fs';
         run_signals := emitted c3 ++ combine_log r ++ done ++ l ++ [synthesis_finished];
         task_logs := logs |} in
    if negb (String.eqb (output_dir s) "") && negb (output_dir_exists s) then
      match makedirs_error s with
      | Some e =>
          let error_msg := "Error creating final output directory "
                           +:+ output_dir s +:+ ": " +:+ e in
          let '(fs', l) := _cleanup_temp_files env temp_files fs in
          {| final_fs := fs';
             run_signals := emitted c2 ++
               [log_message error_msg CRITICAL; critical_error error_msg] ++ l
               ++ [synthesis_finished];
             task_logs := logs |}
      | None =>
          combine (emit c2 (log_message ("Created output directory: " +:+ output_dir s)
                              INFO))
      end
    else combine c2.

Definition start_state (w : worker) : collector :=
  {| results := []; chunks_processed := 0; stop_set := false; reads := 0;
     emitted :=
       [synthesis_started;
        log_message ("Starting parallel chunked synthesis for "
                     +:+ pretty (length (text_chunks w)) +:+ " chunks (max_workers="
                     +:+ pretty (max_workers w) +:+ ").") INFO] |}.

(** The number of chunks submitted, lines 82-91. *)
Definition submitted (s : schedule) (w : worker) : nat :=
  (submit_loop (caller_stop s) (text_chunks w) 0 (start_state w)).1.

(** What the tasks of the submitted chunks leave when the executor's
    [with] block is left. *)
Definition tasks_done (s : schedule) (w : worker) (fs : filesystem)
    : list future_outcome * filesystem * list (list signal) :=
  run_tasks w (fates s) 0 (take (submitted s w) (text_chunks w)) fs.

(** The collector when the loop over [as_completed] is left. *)
Definition collected (s : schedule) (w : worker) (fs : filesystem) : collector :=
  collect_loop (caller_stop s) (length (text_chunks w)) (tasks_done s w fs).1.1
    (completion_order s)
    (submit_loop (caller_stop s) (text_chunks w) 0 (start_state w)).2.

Definition run (s : schedule) (w : worker) (fs : filesystem) : finished :=
  post_process s w (collected s w fs) (tasks_done s w fs).1.2 (tasks_done s w fs).2.



(** The temporary file of the chunk of index [chunk_index], lines 87-88. *)
Definition chunk_temp_path (w : worker) (chunk_index : nat) : string :=
  temp_output_path (temp_base_name w) (chunk_index + 1).

(** What the collector holds about its dict: the keys are distinct, and
    an entry is the path that the future of that chunk returned. *)
Definition results_sound (futures : list future_outcome) (c : collector) : Prop :=
  NoDup (results c).*1
  ∧ ∀ k v, (k, v) ∈ results c → futures !! k = Some (Result (Some v)).

(** The flag as line 136 reads it when the run decides between combining
    and giving up. *)
Definition stop_seen (s : schedule) (w : worker) (fs : filesystem) : bool :=
  (read_stop (caller_stop s) (collected s w fs)).1.

(** Chunk [i] produced a Success result: its future holds a path. *)
Definition chunk_succeeded (s : schedule) (w : worker) (fs : filesystem)
    (i : nat) : Prop :=
  ∃ p, (tasks_done s w fs).1.1 !! i = Some (Result (Some p)).

(** The fetch of chunk [i] succeeds with the audio [body]: its task runs
    and sees no stop, the endpoint answers 200 with [body], which is not
    empty, and the temporary file can be written. *)
Definition fetch_succeeds (w : worker) (fate : nat → task_fate) (i : nat)
    (chunk : str) (body : list Byte.byte) : Prop :=
  ∃ requests_post r,
    fate i = Runs None requests_post
    ∧ requests_post chunk = Responds r
    ∧ status_code r = 200%Z
    ∧ stream_error r = None
    ∧ concat (content_blocks r) = body
    ∧ body ≠ []
    ∧ open_error env (temp_output_path (temp_base_name w) (i + 1)) = None.


End Job.

End Worker.

(** ** Sample runs *)

Module Sample.

Import Worker.

(** A stand-in for the [wave] module: the first byte of a file is its
    number of channels, the bytes after it are its frames. *)
Definition wave_read (data : list Byte.byte)
    : string + wave_params * list Byte.byte :=
  match data with
  | b :: frames =>
      inr ({| nchannels := Z.of_N (Byte.to_N b); sampwidth := 2; framerate := 22050;
              nframes := Z.of_nat (length frames); comptype := "NONE";
              compname := "not compressed" |}, frames)
  | [] => inl "file does not start with RIFF id"
  end.

Definition wave_write (p : wave_params) (frames : list Byte.byte)
    : list Byte.byte :=
  match Byte.of_N (Z.to_N (nchannels p)) with
  | Some b => b :: frames
  | None => frames
  end.

(** An operating system that refuses nothing. *)
Definition os : os_env :=
  {| open_error := λ _, None; remove_error := λ _, None |}.

Definition answers (body : list Byte.byte) : post_outcome :=
  Responds {| status_code := 200; content_blocks := [body]; stream_error := None;
              json_error := None; text := "" |}.

(** The endpoint answers 200 and the connection breaks after [body]. *)
Definition breaks_after (body : list Byte.byte) : post_outcome :=
  Responds {| status_code := 200; content_blocks := [body];
              stream_error := Some "Connection broken: IncompleteRead";
              json_error := None; text := "" |}.

Definition server_error : post_outcome :=
  Responds {| status_code := 500; content_blocks := []; stream_error := None;
              json_error := Some "Piper failed: model not found"; text := "" |}.

(** The audio of chunk [i]: mono, one frame byte that tells the chunk. *)
Definition frame (i : nat) : Byte.byte :=
  match Byte.of_nat (10 + i) with Some b => b | None => Byte.x00 end.

Definition body (i : nat) : list Byte.byte := [Byte.x01; frame i].


(** Scenario A of the specification: three chunks. *)
Definition three_chunks : worker :=
  init (lit "http://localhost:5100")
    (lit "Hello world. This is a test. Final sentence")
    "out/speech.wav" "/tmp/piper_chunk_speech.wav_20250101120000".

Definition one_chunk : worker :=
  init (lit "http://localhost:5100") (lit "Hello world")
    "out/speech.wav" "/tmp/piper_chunk_speech.wav_20250101120000".

(** Every fetch succeeds; the third completes first. *)
Definition all_succeed : schedule :=
  {| caller_stop := None;
     fates := λ i, Runs None (λ _, answers (body i));
     completion_order := [2; 0; 1];
     output_dir := "out"; output_dir_exists := true; makedirs_error := None |}.

(** Scenario B: the second chunk gets a 500 and completes first, the
    other two fetches succeed before the flag is set. *)
Definition second_fails : schedule :=
  {| caller_stop := None;
     fates := λ i, if decide (i = 1) then Runs None (λ _, server_error)
                   else Runs None (λ _, answers (body i));
     completion_order := [1; 0; 2];
     output_dir := "out"; output_dir_exists := true; makedirs_error := None |}.

(** The connection of the only fetch breaks in the middle of the body. *)
Definition stream_breaks : schedule :=
  {| caller_stop := None;
     fates := λ _, Runs None (λ _, breaks_after [Byte.x01; Byte.x0a]);
     completion_order := [0];
     output_dir := "out"; output_dir_exists := true; makedirs_error := None |}.

(** Files for the stitcher: two that read, with one and with two
    channels, and an empty one. *)
Definition some_files : filesystem :=
  <["a.wav" := [Byte.x01; Byte.x0a]]>
    (<["b.wav" := [Byte.x02; Byte.x0b; Byte.x0c]]> (<["empty.wav" := []]> ∅)).

End Sample.

(** ** The chunker as the specification words it *)

Module ChunkerSpec.

(** An occurrence of the delimiter, a period followed by a space. *)
Fixpoint has_dot_space (s : str) : bool :=
  match s with
  | c :: s' =>
      match s' with
      | d :: _ => (c =? DOT)%N && (d =? SP)%N || has_dot_space s'
      | [] => false
      end
  | [] => false
  end.

Definition add_period (fragment : str) : str := fragment ++ [DOT].

(** Blank: empty or made of whitespace only. *)
Definition blank (s : str) : Prop := Forall (λ c, isspace c = true) s.

(** The normalized text: every line feed replaced by one space, every
    carriage return removed. *)
Definition normalized (text : str) : str :=
  flat_map (λ c, if decide (c = LF) then [SP]
                 else if decide (c = CR) then [] else [c]) text.

(** The fragments put together again, the delimiter between each two. *)
Fixpoint joined (fragments : list str) : str :=
  match fragments with
  | [] => []
  | f :: rest =>
      match rest with
      | [] => f
      | _ :: _ => f ++ [DOT; SP] ++ joined rest
      end
  end.

(** [fragments] is the text split on the delimiter: with the delimiters
    put back it is the text, and no delimiter is left inside a fragment. *)
Definition split_of (s : str) (fragments : list str) : Prop :=
  fragments ≠ []
  ∧ joined fragments = s
  ∧ Forall (λ f, has_dot_space f = false) fragments.

(** [t] is the fragment [f] trimmed: [f] without the whitespace at its
    two ends, so that [t] neither begins nor ends with whitespace. *)
Definition trimmed_of (f t : str) : Prop :=
  ∃ pre post,
    f = pre ++ t ++ post
    ∧ blank pre ∧ blank post
    ∧ (∀ c, head t = Some c → isspace c = false)
    ∧ (∀ c, last t = Some c → isspace c = false).

(** The trimmed fragments without the empty ones, with a period put back
    on every one kept but the one that was last in the split. *)
Definition assembled (trimmed : list str) : list str :=
  map add_period (filter (λ t, t ≠ []) (removelast trimmed))
  ++ filter (λ t, t ≠ []) (drop (length trimmed - 1) trimmed).

(** Every line break, be it CR LF, LF or CR, replaced by one space. *)
Fixpoint line_breaks_to_spaces (s : str) : str :=
  match s with
  | [] => []
  | c :: s' =>
      if (c =? CR)%N then
        match s' with
        | d :: s'' =>
            if (d =? LF)%N then SP :: line_breaks_to_spaces s''
            else SP :: line_breaks_to_spaces s'
        | [] => [SP]
        end
      else if (c =? LF)%N then SP :: line_breaks_to_spaces s'
      else c :: line_breaks_to_spaces s'
  end.

End ChunkerSpec.

(** ** The synthesize button: [update_synthesize_button_state], lines 665-673 *)

Module Window.

(** [is_ready], from whether the text file named in the entry exists and
    from the texts of the two other entries and of the text box. *)
Definition update_synthesize_button_state (text_file_exists : bool)
    (api_url_entry output_file_path_entry text_edit : str) : bool :=
  text_file_exists
  && startswith (lit "http") (strip api_url_entry)
  && negb (bool_decide (strip output_file_path_entry = []))
  && negb (bool_decide (strip text_edit = [])).

End Window.

(** ** Notions used in the further properties *)

Module Notions.

Import Worker.

(** What the loop of lines 51-55 keeps of a list of fragments: each one
    stripped, the empty ones dropped. *)
Definition trim_and_drop (fragments : list str) : list str :=
  filter (λ f, f ≠ []) (map strip fragments).

(** How often the delimiter, a period followed by a space, occurs. *)
Fixpoint count_dot_space (s : str) : nat :=
  match s with
  | c :: s' =>
      match s' with
      | d :: _ =>
          (if (c =? DOT)%N && (d =? SP)%N then 1 else 0) + count_dot_space s'
      | [] => 0
      end
  | [] => 0
  end.

(** A signal other than the two that open and close a run. *)
Definition in_between (s : signal) : Prop :=
  s ≠ synthesis_started ∧ s ≠ synthesis_finished.

(** A signal that the loops of [run] emit: a log line with one of the
    four severities, a progress update or a critical error. *)
Definition from_loop (s : signal) : Prop :=
  match s with
  | log_message _ severity => 0 ≤ severity ≤ 3
  | progress_update _ _ _ => True
  | critical_error _ => True
  | _ => False
  end%Z.

(** A log line with one of the four severities. *)
Definition log_line (s : signal) : Prop :=
  match s with
  | log_message _ severity => (0 ≤ severity ≤ 3)%Z
  | _ => False
  end.

Definition is_critical (s : signal) : bool :=
  match s with critical_error _ => true | _ => false end.

(** How many critical errors a list of signals holds. *)
Definition criticals (l : list signal) : nat := length (List.filter is_critical l).

End Notions.

(** ** Further sample data *)

Module Cases.

Import Worker.



(** A text that passes the checks of [start_synthesis] and has no chunk. *)
Definition no_chunks : worker :=
  init (lit "http://localhost:5100") (lit ". ")
    "out/speech.wav" "/tmp/piper_chunk_speech.wav_20250101120000".

(** The caller stops the run when one chunk has been submitted. *)
Definition stopped_early : schedule :=
  {| caller_stop := Some 1;
     fates := λ i, Runs (Some 0) (λ _, Sample.answers (Sample.body i));
     completion_order := [0];
     output_dir := "out"; output_dir_exists := true; makedirs_error := None |}.

End Cases.

(** * Properties *)

(** ** Python strings *)

Section StrFacts.

Lemma lstrip_blank s : ChunkerSpec.blank s → lstrip s = [].
Proof.
  induction 1 as [|c s Hc _ IH]; simpl; [done|]. by rewrite Hc.
Qed.

Lemma strip_blank s : ChunkerSpec.blank s → strip s = [].
Proof. intros H. unfold strip, rstrip. by rewrite (lstrip_blank s H). Qed.

Lemma lstrip_nil_blank s : lstrip s = [] → ChunkerSpec.blank s.
Proof.
  induction s as [|c s IH]; simpl.
  - constructor.
  - destruct (isspace c) eqn:Hc; [|done].
    intros H. constructor; [done | by apply IH].
Qed.

Lemma strip_nil_blank s : strip s = [] → ChunkerSpec.blank s.
Proof.
  unfold strip, rstrip. intros H.
  apply (f_equal reverse) in H. rewrite reverse_involutive in H. simpl in H.
  change (reverse []) with (@nil char) in H.
  apply lstrip_nil_blank in H.
  assert (Hs : ∀ t, ChunkerSpec.blank (lstrip t) → ChunkerSpec.blank t).
  { induction t as [|c t IH]; simpl; [done|].
    destruct (isspace c) eqn:Hc; [|done]. intros. constructor; [done | by apply IH]. }
  apply Hs. unfold ChunkerSpec.blank in *.
  rewrite Forall_reverse in H. exact H.
Qed.

Lemma split_without_delimiter s :
  ChunkerSpec.has_dot_space s = false → split_dot_space s = [s].
Proof.
  induction s as [|c s IH]; [done|].
  destruct s as [|d s']; [done|].
  intros H. change (ChunkerSpec.has_dot_space (c :: d :: s'))
    with ((c =? DOT)%N && (d =? SP)%N || ChunkerSpec.has_dot_space (d :: s')) in H.
  apply orb_false_iff in H as [H1 H2].
  change (split_dot_space (c :: d :: s'))
    with (if (c =? DOT)%N && (d =? SP)%N then [] :: split_dot_space s'
          else cons_first c (split_dot_space (d :: s'))).
  rewrite H1, (IH H2). done.
Qed.

Lemma lstrip_decompose s :
  ∃ pre, s = pre ++ lstrip s ∧ Forall (λ c, isspace c = true) pre.
Proof.
  induction s as [|c s (pre & Hs & Hpre)]; [by exists []|]. simpl.
  destruct (isspace c) eqn:Hc.
  - exists (c :: pre). split; [by rewrite Hs at 1 | by constructor].
  - by exists [].
Qed.

Lemma lstrip_head s c : head (lstrip s) = Some c → isspace c = false.
Proof.
  induction s as [|d s IH]; [done|]. simpl.
  destruct (isspace d) eqn:Hd; [done|]. simpl. by intros [= <-].
Qed.

Lemma rstrip_decompose s : ∃ suf, s = rstrip s ++ suf.
Proof.
  unfold rstrip. destruct (lstrip_decompose (reverse s)) as (pre & Hs & _).
  exists (reverse pre). apply (f_equal reverse) in Hs.
  by rewrite reverse_involutive, reverse_app in Hs.
Qed.

Lemma rstrip_last s c : last (rstrip s) = Some c → isspace c = false.
Proof. unfold rstrip. rewrite last_reverse. apply lstrip_head. Qed.

(** A trimmed string is a stretch of the string it was trimmed from. *)
Lemma strip_decompose s : ∃ pre suf, s = pre ++ strip s ++ suf.
Proof.
  destruct (lstrip_decompose s) as (pre & Hs & _).
  destruct (rstrip_decompose (lstrip s)) as (suf & Hl).
  exists pre, suf. unfold strip. by rewrite <- Hl.
Qed.

Lemma strip_head s c : head (strip s) = Some c → isspace c = false.
Proof.
  destruct (rstrip_decompose (lstrip s)) as (suf & Hl). unfold strip.
  destruct (rstrip (lstrip s)) as [|d r] eqn:Hr; [done|].
  simpl. intros [= <-]. apply (lstrip_head s). by rewrite Hl.
Qed.

Lemma strip_last s c : last (strip s) = Some c → isspace c = false.
Proof. apply rstrip_last. Qed.

Lemma split_cons2 c d s :
  split_dot_space (c :: d :: s)
  = if (c =? DOT)%N && (d =? SP)%N then [] :: split_dot_space s
    else cons_first c (split_dot_space (d :: s)).
Proof. reflexivity. Qed.

Lemma split_nonempty s : split_dot_space s ≠ [].
Proof.
  destruct s as [|c [|d s]]; [done|done|]. rewrite split_cons2.
  destruct ((c =? DOT)%N && (d =? SP)%N); [done|].
  by destruct (split_dot_space (d :: s)).
Qed.

End StrFacts.

(** ** TextChunker *)

Section ChunkerFacts.

Import ChunkerSpec Notions.

Lemma trim_and_drop_one f :
  trim_and_drop [f] = match strip f with [] => [] | _ :: _ => [strip f] end.
Proof.
  unfold trim_and_drop. simpl. destruct (strip f) eqn:E.
  - by rewrite filter_cons_False by (by intros ?).
  - by rewrite filter_cons_True.
Qed.

Lemma trim_and_drop_cons f l : trim_and_drop (f :: l) = trim_and_drop [f] ++ trim_and_drop l.
Proof. unfold trim_and_drop. change (f :: l) with ([f] ++ l). by rewrite map_app, filter_app. Qed.

Lemma chunk_loop_cons n i chunk rest acc :
  Chunker.chunk_loop n i (chunk :: rest) acc
  = Chunker.chunk_loop n (S i) rest
      (match strip chunk with
       | [] => acc
       | _ :: _ =>
           acc ++ [if bool_decide (i < n - 1) then strip chunk ++ [DOT]
                   else strip chunk]
       end).
Proof. reflexivity. Qed.

(** The loop of lines 51-55 from any index on, when [n] is the length of
    the whole split. *)
Lemma chunk_loop_spec potential_chunks : ∀ n i acc,
  n = i + length potential_chunks →
  Chunker.chunk_loop n i potential_chunks acc
  = acc ++ map add_period (trim_and_drop (removelast potential_chunks))
        ++ trim_and_drop (drop (length potential_chunks - 1) potential_chunks).
Proof.
  induction potential_chunks as [|x l IH]; intros n i acc Hn.
  - simpl. by rewrite app_nil_r.
  - destruct l as [|y l'].
    + simpl in Hn. cbn [Chunker.chunk_loop removelast length drop].
      change (drop (1 - 1) [x]) with [x].
      rewrite trim_and_drop_one. change (trim_and_drop []) with (@nil str). simpl.
      rewrite bool_decide_eq_false_2 by lia.
      destruct (strip x); simpl; by rewrite ?app_nil_r.
    + rewrite chunk_loop_cons.
      rewrite (IH n (S i)) by (simpl in *; lia).
      change (removelast (x :: y :: l')) with (x :: removelast (y :: l')).
      replace (drop (length (x :: y :: l') - 1) (x :: y :: l'))
        with (drop (length (y :: l') - 1) (y :: l'))
        by (simpl; by rewrite Nat.sub_0_r).
      rewrite (trim_and_drop_cons x), trim_and_drop_one, map_app.
      rewrite bool_decide_eq_true_2 by (simpl in *; lia).
      destruct (strip x); simpl; by rewrite <- ?app_assoc.
Qed.

Lemma processed_text_cons c text :
  Chunker.processed_text (c :: text)
  = if decide (c = CR) then Chunker.processed_text text
    else (if (c =? LF)%N then SP else c) :: Chunker.processed_text text.
Proof.
  unfold Chunker.processed_text, remove_char, replace_char. cbn [map].
  destruct (N.eqb_spec c LF) as [->|Hc].
  - by rewrite (filter_cons_True _ SP) by done.
  - destruct (decide (c = CR)) as [->|Hr].
    + by rewrite (filter_cons_False _ CR) by (by intros ?).
    + by rewrite (filter_cons_True _ c) by done.
Qed.

Lemma processed_text_idempotent text :
  Chunker.processed_text (Chunker.processed_text text) = Chunker.processed_text text.
Proof.
  induction text as [|c t IH]; [done|].
  rewrite processed_text_cons. destruct (decide (c = CR)) as [->|Hr]; [done|].
  rewrite processed_text_cons, IH.
  destruct (N.eqb_spec c LF) as [->|Hc].
  - by rewrite decide_False by done.
  - rewrite decide_False by done. by destruct (N.eqb_spec c LF).
Qed.

Lemma processed_text_blank text : blank text → blank (Chunker.processed_text text).
Proof.
  induction 1 as [|c t Hc _ IH]; [constructor|].
  rewrite processed_text_cons. destruct (decide (c = CR)); [done|].
  constructor; [|done]. by destruct (N.eqb_spec c LF).
Qed.

Lemma blank_without_delimiter s : blank s → has_dot_space s = false.
Proof.
  induction 1 as [|c s Hc Hs IH]; [done|].
  destruct s as [|d s']; [done|].
  change (has_dot_space (c :: d :: s'))
    with ((c =? DOT)%N && (d =? SP)%N || has_dot_space (d :: s')).
  rewrite IH, orb_false_r.
  destruct (N.eqb_spec c DOT) as [->|]; [done|done].
Qed.

Lemma chunks_without_delimiter text :
  has_dot_space (Chunker.processed_text text) = false →
  Chunker.text_chunks text
  = match strip (Chunker.processed_text text) with
    | [] => []
    | _ :: _ => [strip (Chunker.processed_text text)]
    end.
Proof.
  intros H. unfold Chunker.text_chunks.
  rewrite (split_without_delimiter _ H). simpl.
  by destruct (strip (Chunker.processed_text text)).
Qed.

(** The code's normalization is the one of the specification. *)
Lemma normalized_processed_text text : normalized text = Chunker.processed_text text.
Proof.
  induction text as [|c t IH]; [done|].
  rewrite processed_text_cons. unfold normalized in *. cbn [flat_map]. rewrite IH.
  destruct (decide (c = LF)) as [->|Hlf]; [done|].
  destruct (decide (c = CR)) as [->|Hcr]; [done|].
  by destruct (N.eqb_spec c LF).
Qed.

Lemma has_dot_space_cons2 c d s :
  has_dot_space (c :: d :: s)
  = (c =? DOT)%N && (d =? SP)%N || has_dot_space (d :: s).
Proof. reflexivity. Qed.

Lemma joined_cons2 f g rest :
  joined (f :: g :: rest) = f ++ [DOT; SP] ++ joined (g :: rest).
Proof. reflexivity. Qed.

Lemma joined_cons_first c l : l ≠ [] → joined (cons_first c l) = c :: joined l.
Proof. by destruct l as [|f [|g rest]]. Qed.

(** The first fragment of a split begins as the string does. *)
Lemma split_first_head s f rest :
  split_dot_space s = f :: rest → f = [] ∨ head f = head s.
Proof.
  destruct s as [|c [|d s]].
  - intros [= <- _]. by left.
  - intros [= <- _]. by right.
  - rewrite split_cons2. destruct ((c =? DOT)%N && (d =? SP)%N).
    + intros [= <- _]. by left.
    + destruct (split_dot_space (d :: s)) as [|g r]; intros [= <- _]; by right.
Qed.

(** [str.split] is a split in the sense of the specification. *)
Lemma split_dot_space_split_of s : split_of s (split_dot_space s).
Proof.
  split; [apply split_nonempty|].
  assert (H : ∀ n s, (length s ≤ n)%nat →
            joined (split_dot_space s) = s
            ∧ Forall (λ f, has_dot_space f = false) (split_dot_space s)).
  { clear s. induction n as [|n IH]; intros s Hn.
    { destruct s; [by repeat constructor | simpl in Hn; lia]. }
    destruct s as [|c [|d s]]; [by repeat constructor..|].
    rewrite split_cons2.
    destruct ((c =? DOT)%N && (d =? SP)%N) eqn:Hm.
    - apply andb_true_iff in Hm as [->%N.eqb_eq ->%N.eqb_eq].
      destruct (IH s) as [Hj Hf]; [simpl in Hn; lia|].
      pose proof (split_nonempty s) as Hne.
      destruct (split_dot_space s) as [|g r]; [done|].
      split; [by rewrite joined_cons2, Hj | by constructor].
    - destruct (IH (d :: s)) as [Hj Hf]; [simpl in *; lia|].
      pose proof (split_nonempty (d :: s)) as Hne.
      rewrite joined_cons_first, Hj by done. split; [done|].
      destruct (split_dot_space (d :: s)) as [|g r] eqn:Hs; [done|].
      apply Forall_cons in Hf as [Hg Hr]. constructor; [|done].
      destruct g as [|e g']; [done|].
      destruct (split_first_head _ _ _ Hs) as [?|[= ->]]; [done|].
      by rewrite has_dot_space_cons2, Hm, Hg. }
  by apply (H (length s)).
Qed.

Lemma split_after_fragment f r :
  has_dot_space f = false →
  split_dot_space (f ++ DOT :: SP :: r) = f :: split_dot_space r.
Proof.
  induction f as [|c f IH]; [done|]. intros Hf.
  destruct f as [|d f'].
  - cbn [app]. rewrite split_cons2. change (DOT =? SP)%N with false.
    rewrite andb_false_r. reflexivity.
  - rewrite has_dot_space_cons2 in Hf. apply orb_false_iff in Hf as [Hm Hf].
    change ((c :: d :: f') ++ DOT :: SP :: r)
      with (c :: d :: (f' ++ DOT :: SP :: r)).
    rewrite split_cons2, Hm.
    change (d :: f' ++ DOT :: SP :: r) with ((d :: f') ++ DOT :: SP :: r).
    by rewrite (IH Hf).
Qed.

(** A text has one split only. *)
Lemma split_of_unique s fragments :
  split_of s fragments → fragments = split_dot_space s.
Proof.
  intros (Hne & <- & Hall). revert Hne Hall.
  induction fragments as [|f rest IH]; intros Hne Hall; [done|].
  apply Forall_cons in Hall as [Hf Hrest].
  destruct rest as [|g rest'].
  - change (joined [f]) with f. by rewrite (split_without_delimiter _ Hf).
  - rewrite joined_cons2. cbn [app].
    by rewrite (split_after_fragment _ _ Hf), <- (IH ltac:(done) Hrest).
Qed.

Lemma lstrip_app_blank pre s : blank pre → lstrip (pre ++ s) = lstrip s.
Proof. induction 1 as [|c pre Hc _ IH]; [done|]. simpl. by rewrite Hc. Qed.

Lemma lstrip_begun s : (∀ c, head s = Some c → isspace c = false) → lstrip s = s.
Proof. destruct s as [|c s]; [done|]. intros H. simpl. by rewrite (H c). Qed.

(** [str.strip] trims in the sense of the specification. *)
Lemma strip_trimmed_of f : trimmed_of f (strip f).
Proof.
  destruct (lstrip_decompose f) as (pre & Hf & Hpre).
  destruct (lstrip_decompose (reverse (lstrip f))) as (post & Hl & Hpost).
  exists pre, (reverse post). split.
  { rewrite Hf at 1. f_equal. unfold strip, rstrip.
    apply (f_equal reverse) in Hl.
    by rewrite reverse_involutive, reverse_app in Hl. }
  split; [done|]. split; [by apply Forall_reverse|].
  split; [apply strip_head | apply strip_last].
Qed.

(** A fragment trims to one string only. *)
Lemma trimmed_of_unique f t : trimmed_of f t → t = strip f.
Proof.
  intros (pre & post & -> & Hpre & Hpost & Hhead & Hlast).
  destruct t as [|c t'].
  { symmetry. apply strip_blank. by apply Forall_app. }
  unfold strip. rewrite (lstrip_app_blank _ _ Hpre).
  rewrite (lstrip_begun ((c :: t') ++ post)) by (intros ? [= <-]; by apply Hhead).
  unfold rstrip. rewrite reverse_app.
  rewrite lstrip_app_blank by (by apply Forall_reverse).
  rewrite lstrip_begun; [by rewrite reverse_involutive|].
  intros d Hd. rewrite head_reverse in Hd. by apply Hlast.
Qed.

Lemma removelast_map_strip (l : list str) :
  removelast (map strip l) = map strip (removelast l).
Proof.
  induction l as [|x [|y l] IH]; [done..|].
  change (removelast (map strip (x :: y :: l)))
    with (strip x :: removelast (map strip (y :: l))).
  by rewrite IH.
Qed.

(** The chunks, from the fragments as [str.strip] trims them. *)
Lemma text_chunks_assembled text :
  Chunker.text_chunks text
  = assembled (map strip (split_dot_space (Chunker.processed_text text))).
Proof.
  unfold Chunker.text_chunks, assembled. rewrite chunk_loop_spec by done.
  unfold trim_and_drop. by rewrite removelast_map_strip, length_map, skipn_map.
Qed.

End ChunkerFacts.

(** C4: the chunker does what the specification says. There is a split
    of the normalized text on ". " and a trimming of its fragments such
    that the chunks are the trimmed fragments without the empty ones,
    with the period put back on every one kept except the one that was
    last in the split; and the chunks are that for every such split and
    trimming. In particular "Hello world. This is a test. Final sentence"
    gives "Hello world.", "This is a test.", "Final sentence". *)
Theorem text_chunks_as_specified :
  (∀ text, ∃ fragments trimmed,
     ChunkerSpec.split_of (ChunkerSpec.normalized text) fragments
     ∧ Forall2 ChunkerSpec.trimmed_of fragments trimmed
     ∧ Chunker.text_chunks text = ChunkerSpec.assembled trimmed)
  ∧ (∀ text fragments trimmed,
       ChunkerSpec.split_of (ChunkerSpec.normalized text) fragments →
       Forall2 ChunkerSpec.trimmed_of fragments trimmed →
       Chunker.text_chunks text = ChunkerSpec.assembled trimmed)
  ∧ Chunker.text_chunks (lit "Hello world. This is a test. Final sentence")
    = [lit "Hello world."; lit "This is a test."; lit "Final sentence"].
Proof.
  split; [|split].
  - intros text.
    exists (split_dot_space (Chunker.processed_text text)),
           (map strip (split_dot_space (Chunker.processed_text text))).
    rewrite normalized_processed_text.
    split; [apply split_dot_space_split_of|]. split; [|apply text_chunks_assembled].
    apply Forall2_fmap_r, Forall_Forall2_diag, Forall_forall.
    intros f _. apply strip_trimmed_of.
  - intros text fragments trimmed Hsplit Htrim.
    rewrite normalized_processed_text in Hsplit.
    apply split_of_unique in Hsplit as ->.
    rewrite text_chunks_assembled. f_equal.
    induction Htrim as [|f t fs ts Hft _ IH]; [done|].
    cbn [map]. by rewrite (trimmed_of_unique _ _ Hft), IH.
  - vm_compute. reflexivity.
Qed.

(** C5, as the claim has it, fails: a text with no ". " in it whose line
    break follows a period is split in two. *)
Lemma no_delimiter_two_chunks :
  let text := lit "a." ++ [LF] ++ lit "b" in
  ChunkerSpec.has_dot_space text = false
  ∧ Chunker.text_chunks text = [lit "a."; lit "b"]
  ∧ Chunker.text_chunks text ≠ [strip text].
Proof. vm_compute. split; [done|]. split; [done|]. discriminate. Qed.

(** C5, amended: a text whose normalized form has no ". " in it and is
    not blank gives one chunk, the normalized text trimmed; an empty or
    whitespace-only text gives no chunk and no job is started for it. *)
Theorem chunks_of_undelimited_text text :
  (ChunkerSpec.has_dot_space (Chunker.processed_text text) = false →
   strip (Chunker.processed_text text) ≠ [] →
   Chunker.text_chunks text = [strip (Chunker.processed_text text)])
  ∧ (ChunkerSpec.blank text →
     Chunker.text_chunks text = []
     ∧ ∀ worker_running api_url output_filepath chunks,
         Gui.start_synthesis worker_running text api_url output_filepath
         ≠ Gui.WorkerStarted chunks).
Proof.
  split.
  - intros H Hne. rewrite chunks_without_delimiter by done.
    by destruct (strip (Chunker.processed_text text)).
  - intros Hb. split.
    + rewrite chunks_without_delimiter
        by (by apply blank_without_delimiter, processed_text_blank).
      by rewrite strip_blank by (by apply processed_text_blank).
    + intros running url out chunks. unfold Gui.start_synthesis.
      rewrite (strip_blank text Hb).
      destruct running; [done|].
      by destruct (negb (startswith (lit "http") (strip url))).
Qed.

Lemma chunks_of_undelimited_text_witness :
  Chunker.text_chunks (lit " one line" ++ [LF] ++ lit "and another ")
  = [lit "one line and another"]
  ∧ Chunker.text_chunks (lit "  " ++ [CR; LF]) = [].
Proof.
  split.
  - refine (proj1 (chunks_of_undelimited_text
                      (lit " one line" ++ [LF] ++ lit "and another ")) _ _);
      vm_compute; [reflexivity | discriminate].
  - refine (proj1 (proj2 (chunks_of_undelimited_text (lit "  " ++ [CR; LF])) _)).
    repeat constructor.
Defined.

(** C6, as the claim has it, fails: a lone carriage return is a line
    break, and it is taken out, not made a space. *)
Lemma lone_carriage_return_not_a_space :
  let text := lit "a." ++ [CR] ++ lit "b" in
  Chunker.text_chunks text = [lit "a.b"]
  ∧ Chunker.text_chunks (ChunkerSpec.line_breaks_to_spaces text) = [lit "a."; lit "b"]
  ∧ Chunker.text_chunks text
    ≠ Chunker.text_chunks (ChunkerSpec.line_breaks_to_spaces text).
Proof. vm_compute. split; [done|]. split; [done|]. discriminate. Qed.

(** C6, amended: chunking a text gives the chunks of that text with every
    line feed replaced by one space and every carriage return taken out. *)
Theorem text_chunks_of_normalized text :
  Chunker.text_chunks text
  = Chunker.text_chunks (remove_char CR (replace_char LF SP text)).
Proof.
  change (remove_char CR (replace_char LF SP text)) with (Chunker.processed_text text).
  unfold Chunker.text_chunks. by rewrite processed_text_idempotent.
Qed.

(** ** The synthesis server *)

Section ServerFacts.

Import Server.

Lemma dict_get_absent key items : dict_has key items = false → dict_get key items = PNone.
Proof.
  induction items as [|[k v] rest IH]; [done|]. simpl.
  destruct (decide (k = key)); [done | exact IH].
Qed.

Lemma synthesize_not_json piper req :
  is_json req = false →
  (∃ items, resp (synthesize piper req) = Jsonify (PDict items) 400
            ∧ dict_has (lit "error") items = true)
  ∧ popen_calls (synthesize piper req) = 0.
Proof.
  intros H. unfold synthesize. rewrite H. simpl. split; [|done].
  eexists. split; [reflexivity|]. reflexivity.
Qed.

Lemma synthesize_falsy_text piper req items :
  is_json req = true → parsed_body req = Some (PDict items) →
  truthy (dict_get (lit "text") items) = false →
  (∃ items, resp (synthesize piper req) = Jsonify (PDict items) 400
            ∧ dict_has (lit "error") items = true)
  ∧ popen_calls (synthesize piper req) = 0.
Proof.
  intros H1 H2 H3. unfold synthesize. rewrite H1, H2, H3. simpl. split; [|done].
  eexists. split; [reflexivity|]. reflexivity.
Qed.

End ServerFacts.

(** C10, as the claim has it, fails for a request that says it is JSON:
    a body that does not parse as JSON is answered with status 400 by
    Flask itself, without the JSON body and its 'error' field, and a
    payload that is no object, which has no 'text' field, is answered
    with status 500. *)
Lemma json_request_without_error_body :
  let piper := Server.PiperExits 0 [Byte.x01] [] in
  let unparsable := {| Server.is_json := true; Server.parsed_body := None |} in
  let a_list := {| Server.is_json := true;
                   Server.parsed_body := Some (Server.PList []) |} in
  let null := {| Server.is_json := true; Server.parsed_body := Some Server.PNone |} in
  Server.resp (Server.synthesize piper unparsable) = Server.HttpException 400
  ∧ Server.resp (Server.synthesize piper a_list) = Server.HttpException 500
  ∧ Server.resp (Server.synthesize piper null) = Server.HttpException 500
  ∧ ∀ req, req = unparsable ∨ req = a_list ∨ req = null →
      ¬ ∃ items, Server.resp (Server.synthesize piper req)
                 = Server.Jsonify (Server.PDict items) 400
                 ∧ Server.dict_has (lit "error") items = true.
Proof.
  intros piper unparsable a_list null.
  split; [done|]. split; [done|]. split; [done|].
  intros req [-> |[-> | ->]] (items & H & _); discriminate H.
Qed.

(** C10, amended: a POST to /synthesize whose content type is not JSON,
    or whose body is a JSON object that has no 'text' or an empty 'text',
    is answered with status 400 and a JSON body with an 'error' field,
    and [subprocess.Popen] is not called. *)
Theorem synthesize_rejects_bad_request piper req :
  Server.is_json req = false
  ∨ (Server.is_json req = true
     ∧ ∃ items, Server.parsed_body req = Some (Server.PDict items)
         ∧ (Server.dict_has (lit "text") items = false
            ∨ Server.dict_get (lit "text") items = Server.PStr [])) →
  (∃ items, Server.resp (Server.synthesize piper req)
            = Server.Jsonify (Server.PDict items) 400
            ∧ Server.dict_has (lit "error") items = true)
  ∧ Server.popen_calls (Server.synthesize piper req) = 0.
Proof.
  intros [H | (H & items & Hbody & Htext)].
  - by apply synthesize_not_json.
  - apply (synthesize_falsy_text piper req items); [done..|].
    destruct Htext as [Ha | He].
    + by rewrite (dict_get_absent _ _ Ha).
    + by rewrite He.
Qed.

Lemma synthesize_rejects_bad_request_witness :
  let piper := Server.PiperExits 0 [Byte.x01] [] in
  let not_json := {| Server.is_json := false; Server.parsed_body := None |} in
  let no_text := {| Server.is_json := true;
                    Server.parsed_body := Some (Server.PDict [(lit "voice", Server.PStr (lit "x"))]) |} in
  let empty_text := {| Server.is_json := true;
                       Server.parsed_body := Some (Server.PDict [(lit "text", Server.PStr [])]) |} in
  Server.popen_calls (Server.synthesize piper not_json) = 0
  ∧ Server.popen_calls (Server.synthesize piper no_text) = 0
  ∧ Server.popen_calls (Server.synthesize piper empty_text) = 0.
Proof.
  intros piper not_json no_text empty_text. split; [|split].
  - apply (synthesize_rejects_bad_request piper not_json). by left.
  - apply (synthesize_rejects_bad_request piper no_text). right. split; [done|].
    eexists. split; [reflexivity|]. by left.
  - apply (synthesize_rejects_bad_request piper empty_text). right. split; [done|].
    eexists. split; [reflexivity|]. by right.
Defined.

(** ** Temporary file names *)

Section Paths.

Import Worker.

Lemma pretty_N_go_first x : ∀ s, (0 < x)%N →
  ∃ c r, pretty_N_go x s = String c r ∧ c ≠ "0"%char.
Proof.
  induction (N.lt_wf_0 x) as [x _ IH]; intros s Hx.
  rewrite pretty_N_go_step by done.
  destruct (decide (x `div` 10 = 0)%N) as [Hd|Hd].
  - rewrite Hd, pretty_N_go_0. eexists _, _. split; [done|].
    apply N.div_small_iff in Hd; [|done].
    rewrite N.mod_small by done.
    intros Hc.
    assert (x = 0)%N by (apply pretty_N_char_inj; [done | lia | done]). lia.
  - apply IH; [|by apply N.neq_0_lt_0]. apply N.div_lt; lia.
Qed.

Lemma pretty_nat_first (n : nat) : n ≠ 0 →
  ∃ c r, pretty n = String c r ∧ c ≠ "0"%char.
Proof.
  intros Hn. unfold pretty, pretty_nat, pretty, pretty_N.
  rewrite decide_False by lia. apply pretty_N_go_first. lia.
Qed.

Lemma string_app_cons c (a b : string) : String c a +:+ b = String c (a +:+ b).
Proof. reflexivity. Qed.

Lemma string_app_nil (b : string) : "" +:+ b = b.
Proof. reflexivity. Qed.

Lemma string_app_length (a b : string) :
  String.length (a +:+ b) = String.length a + String.length b.
Proof.
  induction a as [|c a IH]; [done|].
  rewrite string_app_cons. simpl. by rewrite IH.
Qed.

Lemma string_app_inj_r (a : string) : ∀ b ext : string,
  a +:+ ext = b +:+ ext → a = b.
Proof.
  induction a as [|c a IH]; intros [|d b] ext H.
  - done.
  - apply (f_equal String.length) in H.
    rewrite string_app_nil, string_app_cons in H. simpl in H.
    rewrite string_app_length in H. lia.
  - apply (f_equal String.length) in H.
    rewrite string_app_nil, string_app_cons in H. simpl in H.
    rewrite string_app_length in H. lia.
  - rewrite !string_app_cons in H. injection H as -> H.
    f_equal. by apply (IH b ext).
Qed.

Lemma zeros_app_inj k1 : ∀ k2 (s1 s2 : string),
  (k1 ≤ k2)%nat → zeros k1 +:+ s1 = zeros k2 +:+ s2 → s1 = zeros (k2 - k1) +:+ s2.
Proof.
  induction k1 as [|k1 IH]; intros k2 s1 s2 Hle H.
  - by rewrite Nat.sub_0_r.
  - destruct k2 as [|k2]; [lia|].
    cbn [zeros] in H. rewrite !string_app_cons in H. injection H as H.
    apply IH in H; [done | lia].
Qed.

Lemma pretty_nat_nonempty (n : nat) : pretty n ≠ "".
Proof.
  destruct (decide (n = 0)) as [->|Hn]; [done|].
  destruct (pretty_nat_first n Hn) as (c & r & -> & _). done.
Qed.

Lemma fmt04d_inj (n m : nat) : fmt04d n = fmt04d m → n = m.
Proof.
  assert (Hhalf : ∀ a b, (String.length (pretty b) ≤ String.length (pretty a))%nat →
                  fmt04d a = fmt04d b → a = b).
  { intros a b Hlen H. unfold fmt04d, zfill in H.
    apply zeros_app_inj in H; [|lia].
    destruct (4 - String.length (pretty b) - (4 - String.length (pretty a)))
      as [|k] eqn:Hk.
    - rewrite string_app_nil in H. by apply (inj pretty) in H.
    - exfalso. cbn [zeros] in H. rewrite string_app_cons in H.
      destruct (decide (a = 0)) as [->|Ha].
      + change (pretty 0) with "0" in H. injection H as H.
        destruct k; [|done]. rewrite string_app_nil in H.
        symmetry in H. by apply pretty_nat_nonempty in H.
      + destruct (pretty_nat_first a Ha) as (c & r & Hp & Hc).
        rewrite Hp in H. injection H as H _. congruence. }
  intros H. destruct (decide (String.length (pretty m) ≤ String.length (pretty n))%nat).
  - by apply Hhalf.
  - symmetry. apply Hhalf; [lia | done].
Qed.

Lemma temp_output_path_inj base n m :
  temp_output_path base n = temp_output_path base m → n = m.
Proof.
  unfold temp_output_path. intros H.
  apply (inj (String.app base)) in H.
  rewrite !string_app_cons, !string_app_nil in H. injection H as H.
  apply fmt04d_inj. by apply (string_app_inj_r _ _ ".wav").
Qed.

Lemma temp_output_path_nonempty base n : temp_output_path base n ≠ "".
Proof.
  unfold temp_output_path. intros H. apply (f_equal String.length) in H.
  rewrite !string_app_length in H. simpl in H. lia.
Qed.

End Paths.

(** ** ChunkFetcher *)

Section FetcherFacts.

Import Worker.

Lemma flag_at_mono stop_from k k' :
  (k ≤ k')%nat → flag_at stop_from k = true → flag_at stop_from k' = true.
Proof.
  destruct stop_from as [t|]; simpl; [|done].
  intros Hk H. apply bool_decide_eq_true in H. apply bool_decide_eq_true. lia.
Qed.

(** Without a stop the download loop writes every block. *)
Lemma download_no_stop blocks : ∀ k i written,
  ∃ k', download None k i blocks written = (k', false, written ++ concat blocks).
Proof.
  induction blocks as [|b rest IH]; intros k i written.
  - exists k. simpl. by rewrite app_nil_r.
  - cbn [download flag_at concat]. destruct (bool_decide (i mod 10 = 0)).
    + destruct (IH (S k) (S i) (written ++ b)) as [k' ->].
      exists k'. by rewrite <- app_assoc.
    + destruct (IH k (S i) (written ++ b)) as [k' ->].
      exists k'. by rewrite <- app_assoc.
Qed.

(** The only path the fetcher ever returns is the one it was given. *)
Lemma synthesize_chunk_returns_its_path env stop_from post n chunk path fs p :
  returned (_synthesize_chunk env stop_from post n chunk path fs) = Some p → p = path.
Proof.
  unfold _synthesize_chunk.
  repeat (case_match; simpl; try done); congruence.
Qed.

(** The fetcher leaves every other file as it is. *)
Lemma synthesize_chunk_other_files env stop_from post n chunk path fs q :
  q ≠ path →
  fs_after (_synthesize_chunk env stop_from post n chunk path fs) !! q = fs !! q.
Proof.
  intros Hq. unfold _synthesize_chunk.
  repeat (case_match; simpl; try done);
    rewrite ?lookup_delete_ne, ?lookup_insert_ne by done; done.
Qed.

(** A fetch that nothing disturbs: no stop is seen, the endpoint answers
    200 with a body that is not empty, and the file can be written. *)
Lemma synthesize_chunk_success env post n chunk path fs r :
  post chunk = Responds r → status_code r = 200%Z → stream_error r = None →
  concat (content_blocks r) ≠ [] → open_error env path = None →
  returned (_synthesize_chunk env None post n chunk path fs) = Some path
  ∧ fs_after (_synthesize_chunk env None post n chunk path fs)
    = <[path := concat (content_blocks r)]> fs.
Proof.
  intros Hpost Hstatus Hstream Hbody Hopen. unfold _synthesize_chunk.
  cbn [flag_at]. rewrite Hpost, Hopen.
  rewrite bool_decide_eq_true_2 by done.
  destruct (download_no_stop (content_blocks r) 2 0 []) as [k' ->].
  rewrite Hstream. cbn [app].
  assert (He : exists_ (<[path := concat (content_blocks r)]> fs) path = true).
  { unfold exists_. apply bool_decide_eq_true. rewrite lookup_insert_eq. eauto. }
  assert (Hs : bool_decide (0 < getsize (<[path := concat (content_blocks r)]> fs) path)%nat
               = true).
  { apply bool_decide_eq_true. unfold getsize. rewrite lookup_insert_eq.
    destruct (concat (content_blocks r)); [done | simpl; lia]. }
  rewrite He, Hs. done.
Qed.

(** What the fetcher makes of a request that fails: nothing is raised and
    nothing written, the result is [None]; without a stop the failure is
    logged as an error; after a stop a transport failure is not, but a
    timeout still is. *)
Lemma synthesize_chunk_request_fails env stop_from post n chunk path fs :
  flag_at stop_from 0 = false →
  (post chunk = RaisesTimeout ∨ (∃ e, post chunk = RaisesRequestException e)) →
  let r := _synthesize_chunk env stop_from post n chunk path fs in
  returned r = None ∧ fs_after r = fs
  ∧ (flag_at stop_from 1 = false → existsb is_error_report (logged r) = true)
  ∧ (flag_at stop_from 1 = true → (∃ e, post chunk = RaisesRequestException e) →
     existsb is_error_report (logged r) = false)
  ∧ (post chunk = RaisesTimeout → existsb is_error_report (logged r) = true).
Proof.
  intros H0 Hpost. unfold _synthesize_chunk. rewrite H0.
  destruct Hpost as [-> | [e ->]]; simpl.
  - repeat split; try done. intros _ [e He]. done.
  - destruct (flag_at stop_from 1); simpl; repeat split; done.
Qed.

End FetcherFacts.

(** C7, where the code departs from it: a request that times out after a
    stop was requested is still reported as an error, at severity [ERROR],
    while a transport failure in the same situation is only a warning. *)
Theorem timeout_after_stop_is_reported env chunk path fs :
  let stop_from := Some 1 in
  let timed_out :=
    Worker._synthesize_chunk env stop_from (λ _, Worker.RaisesTimeout) 2 chunk path fs in
  let failed :=
    Worker._synthesize_chunk env stop_from
      (λ _, Worker.RaisesRequestException "Connection aborted.") 2 chunk path fs in
  Worker.flag_at stop_from 0 = false
  ∧ Worker.flag_at stop_from 1 = true
  ∧ Worker.returned timed_out = None
  ∧ Worker.logged timed_out
    = [Worker.log_message "Starting request for chunk 2..." Worker.INFO;
       Worker.log_message "API call timed out for chunk 2 (timeout=60s)." Worker.ERROR]
  ∧ existsb Worker.is_error_report (Worker.logged timed_out) = true
  ∧ existsb Worker.is_error_report (Worker.logged failed) = false.
Proof. vm_compute. repeat split; reflexivity. Qed.

(** ** TempArtifactJanitor *)

Section JanitorFacts.

Import Worker.

Variable env : os_env.

Lemma delete_loop_other_files files : ∀ fs count q,
  q ∉ files → (delete_loop env files fs count).1.1 !! q = fs !! q.
Proof.
  induction files as [|f rest IH]; intros fs count q Hq; [done|].
  apply not_elem_of_cons in Hq as [Hne Hq]. cbn [delete_loop].
  destruct (exists_ fs f); [|by apply IH].
  destruct (remove_error env f).
  - specialize (IH fs count q Hq).
    destruct (delete_loop env rest fs count) as [[fs' c] l]. exact IH.
  - rewrite IH by done. by apply lookup_delete_ne.
Qed.

Lemma delete_loop_stays_absent files : ∀ fs count q,
  fs !! q = None → (delete_loop env files fs count).1.1 !! q = None.
Proof.
  induction files as [|f rest IH]; intros fs count q Hq; [done|].
  cbn [delete_loop].
  destruct (exists_ fs f); [|by apply IH].
  destruct (remove_error env f).
  - specialize (IH fs count q Hq).
    destruct (delete_loop env rest fs count) as [[fs' c] l]. exact IH.
  - apply IH. rewrite lookup_delete_None. by right.
Qed.

(** A file that cannot be deleted does not keep the loop from deleting
    the others: every listed file that [os.remove] accepts is gone. *)
Lemma delete_loop_deletes files : ∀ fs count q,
  q ∈ files → remove_error env q = None →
  (delete_loop env files fs count).1.1 !! q = None.
Proof.
  induction files as [|f rest IH]; intros fs count q Hq Hrm.
  - by apply elem_of_nil in Hq.
  - cbn [delete_loop].
    destruct (decide (q = f)) as [->|Hne].
    + rewrite Hrm. destruct (exists_ fs f) eqn:He.
      * apply delete_loop_stays_absent, lookup_delete_eq.
      * apply delete_loop_stays_absent.
        unfold exists_ in He. apply bool_decide_eq_false in He.
        by apply eq_None_not_Some.
    + apply elem_of_cons in Hq as [?|Hq]; [done|].
      destruct (exists_ fs f); [|by apply IH].
      destruct (remove_error env f).
      * specialize (IH fs count q Hq Hrm).
        destruct (delete_loop env rest fs count) as [[fs' c] l]. exact IH.
      * by apply IH.
Qed.

Lemma cleanup_other_files files fs q :
  q ∉ files → (_cleanup_temp_files env files fs).1 !! q = fs !! q.
Proof.
  intros Hq. unfold _cleanup_temp_files. destruct files as [|f rest]; [done|].
  pose proof (delete_loop_other_files (f :: rest) fs 0 q Hq) as H.
  destruct (delete_loop env (f :: rest) fs 0) as [[fs' c] l]. exact H.
Qed.

Lemma cleanup_deletes files fs q :
  q ∈ files → remove_error env q = None →
  (_cleanup_temp_files env files fs).1 !! q = None.
Proof.
  intros Hq Hrm. unfold _cleanup_temp_files. destruct files as [|f rest].
  - by apply elem_of_nil in Hq.
  - pose proof (delete_loop_deletes (f :: rest) fs 0 q Hq Hrm) as H.
    destruct (delete_loop env (f :: rest) fs 0) as [[fs' c] l]. exact H.
Qed.

End JanitorFacts.

(** ** AudioStitcher *)

Section StitcherFacts.

Import Worker.

Variable wave_read : list Byte.byte → string + wave_params * list Byte.byte.
Variable wave_write : wave_params → list Byte.byte → list Byte.byte.
Variable env : os_env.





End StitcherFacts.

Section StitcherSpec.

Import Worker.

Variable wave_read : list Byte.byte → string + wave_params * list Byte.byte.
Variable wave_write : wave_params → list Byte.byte → list Byte.byte.
Variable env : os_env.



End StitcherSpec.



(** ** Dispatcher: the tasks *)

Section TaskFacts.

Import Worker.

Variable env : os_env.
Variable w : worker.
Variable fate : nat → task_fate.

Lemma run_tasks_cons i chunk rest fs :
  run_tasks env w fate i (chunk :: rest) fs
  = let chunk_num := i + 1 in
    let '(outcome, fs1, l) :=
      match fate i with
      | Runs stop_from requests_post =>
          let r := _synthesize_chunk env stop_from requests_post chunk_num chunk
                     (temp_output_path (temp_base_name w) chunk_num) fs in
          (Result (returned r), fs_after r, logged r)
      | Cancelled => (CancelledError, fs, [])
      | Crashes e => (Exception_ e, fs, [])
      end in
    let '(outcomes, fs2, ls) := run_tasks env w fate (S i) rest fs1 in
    (outcome :: outcomes, fs2, l :: ls).
Proof. reflexivity. Qed.

Lemma run_tasks_length chunks : ∀ i fs,
  length (run_tasks env w fate i chunks fs).1.1 = length chunks.
Proof.
  induction chunks as [|chunk rest IH]; intros i fs; [done|].
  rewrite run_tasks_cons. cbv zeta.
  destruct (fate i) as [stop_from post| |e];
    match goal with
    | |- context [run_tasks env w fate (S i) rest ?f] =>
        specialize (IH (S i) f); destruct (run_tasks env w fate (S i) rest f) as [[o f2] ls]
    end; simpl in *; by rewrite IH.
Qed.

(** A future that holds a path holds the temporary path of its chunk. *)
Lemma run_tasks_result_path chunks : ∀ i fs j v,
  (run_tasks env w fate i chunks fs).1.1 !! j = Some (Result (Some v)) →
  v = temp_output_path (temp_base_name w) (i + j + 1).
Proof.
  induction chunks as [|chunk rest IH]; intros i fs j v; [done|].
  rewrite run_tasks_cons. cbv zeta.
  destruct (fate i) as [stop_from post| |e];
    match goal with
    | |- context [run_tasks env w fate (S i) rest ?f] =>
        pose proof (IH (S i) f) as IH';
        destruct (run_tasks env w fate (S i) rest f) as [[o f2] ls]
    end; simpl in *; destruct j as [|j]; simpl; intros H;
    try done;
    try (apply IH' in H; rewrite H; f_equal; lia).
  injection H as H. apply synthesize_chunk_returns_its_path in H.
  rewrite H. f_equal. lia.
Qed.

(** The tasks touch no file but their temporary files. *)
Lemma run_tasks_other_files chunks q : ∀ i fs,
  (∀ n, temp_output_path (temp_base_name w) n ≠ q) →
  (run_tasks env w fate i chunks fs).1.2 !! q = fs !! q.
Proof.
  induction chunks as [|chunk rest IH]; intros i fs Hq; [done|].
  rewrite run_tasks_cons. cbv zeta.
  destruct (fate i) as [stop_from post| |e];
    match goal with
    | |- context [run_tasks env w fate (S i) rest ?f] =>
        pose proof (IH (S i) f Hq) as IH';
        destruct (run_tasks env w fate (S i) rest f) as [[o f2] ls]
    end; simpl in *; rewrite IH'; [|done..].
  apply synthesize_chunk_other_files. intros ->. by apply (Hq (i + 1)).
Qed.

(** When every fetch succeeds, every future holds the temporary path of
    its chunk and the file at that path holds the audio of that chunk. *)
Lemma run_tasks_all_succeed (bodies : nat → list Byte.byte) chunks : ∀ i fs,
  (∀ j chunk, chunks !! j = Some chunk →
     fetch_succeeds env w fate (i + j) chunk (bodies (i + j))) →
  (run_tasks env w fate i chunks fs).1.1
  = map (λ k, Result (Some (temp_output_path (temp_base_name w) (k + 1))))
      (seq i (length chunks))
  ∧ (∀ k, (i ≤ k < i + length chunks)%nat →
       (run_tasks env w fate i chunks fs).1.2
         !! temp_output_path (temp_base_name w) (k + 1) = Some (bodies k))
  ∧ (∀ q, (∀ k, (i ≤ k < i + length chunks)%nat →
             q ≠ temp_output_path (temp_base_name w) (k + 1)) →
       (run_tasks env w fate i chunks fs).1.2 !! q = fs !! q).
Proof.
  induction chunks as [|chunk rest IH]; intros i fs Hok.
  - simpl. split; [done|]. split; [intros k ?; lia | done].
  - rewrite run_tasks_cons. cbv zeta.
    destruct (Hok 0 chunk eq_refl)
      as (post & r & Hfate & Hpost & Hstatus & Hstream & Hbody & Hne & Hopen).
    rewrite Nat.add_0_r in Hfate, Hopen, Hbody, Hne. rewrite Hfate.
    rewrite <- Hbody in Hne.
    destruct (synthesize_chunk_success env post (i + 1) chunk
                (temp_output_path (temp_base_name w) (i + 1)) fs r
                Hpost Hstatus Hstream Hne Hopen) as [Hret Hfs].
    rewrite Hret, Hfs, Hbody.
    destruct (IH (S i) (<[temp_output_path (temp_base_name w) (i + 1) := bodies i]> fs))
      as (Ho & Hf & Hq).
    { intros j c Hj. replace (S i + j) with (i + S j) by lia. by apply Hok. }
    destruct (run_tasks env w fate (S i) rest
                (<[temp_output_path (temp_base_name w) (i + 1) := bodies i]> fs))
      as [[o f2] ls].
    simpl in *. split; [by rewrite Ho|]. split.
    + intros k Hk. destruct (decide (k = i)) as [->|Hki].
      * rewrite Hq; [by rewrite lookup_insert_eq|].
        intros k Hk' Heq. apply temp_output_path_inj in Heq. lia.
      * apply Hf. lia.
    + intros q Hne'. rewrite Hq.
      * apply lookup_insert_ne. intros Heq. by apply (Hne' i); [lia|].
      * intros k Hk. apply Hne'. lia.
Qed.

End TaskFacts.

(** ** ResultCollector *)

Section CollectorFacts.

Import Worker.

Lemma dict_set_keys k v d :
  (dict_set k v d).*1 = if decide (k ∈ d.*1) then d.*1 else d.*1 ++ [k].
Proof.
  induction d as [|[k' v'] rest IH].
  - destruct (decide (k ∈ [].*1)) as [Hin|Hin]; [|done].
    by apply elem_of_nil in Hin.
  - cbn [dict_set]. destruct (decide (k' = k)) as [->|Hne].
    + destruct (decide (k ∈ ((k, v') :: rest).*1)) as [Hin|Hin]; [done|].
      exfalso. apply Hin. by left.
    + change (((k', v') :: dict_set k v rest).*1) with (k' :: (dict_set k v rest).*1).
      rewrite IH.
      change (((k', v') :: rest).*1) with (k' :: rest.*1).
      destruct (decide (k ∈ rest.*1)) as [Hin|Hin];
        destruct (decide (k ∈ k' :: rest.*1)) as [Hin'|Hin']; try done.
      * exfalso. apply Hin'. by right.
      * apply elem_of_cons in Hin' as [?|?]; [congruence | done].
Qed.

Lemma dict_set_fresh k v d : k ∉ d.*1 → dict_set k v d = d ++ [(k, v)].
Proof.
  induction d as [|[k' v'] rest IH]; simpl; [done|].
  intros [Hne Hin]%not_elem_of_cons.
  rewrite decide_False by done. by rewrite IH.
Qed.

Lemma dict_set_elem k v d k' v' :
  (k', v') ∈ dict_set k v d → (k', v') = (k, v) ∨ (k', v') ∈ d.
Proof.
  induction d as [|[k0 v0] rest IH]; simpl.
  - intros ?%list_elem_of_singleton. by left.
  - destruct (decide (k0 = k)) as [->|Hne].
    + intros [?|?]%elem_of_cons; [by left | right; by right].
    + intros [->|Hin]%elem_of_cons; [right; by left|].
      destruct (IH Hin); [by left | right; by right].
Qed.

Lemma dict_set_NoDup k v d : NoDup d.*1 → NoDup (dict_set k v d).*1.
Proof.
  intros Hd. rewrite dict_set_keys. destruct (decide (k ∈ d.*1)); [done|].
  apply NoDup_app. split; [done|]. split.
  - intros x Hx ?%list_elem_of_singleton. by subst.
  - apply NoDup_singleton.
Qed.

Lemma dict_lookup_elem k v d : NoDup d.*1 → (k, v) ∈ d → dict_lookup k d = Some v.
Proof.
  induction d as [|[k0 v0] rest IH]; simpl.
  - by intros _ ?%elem_of_nil.
  - intros [Hk0 Hnd]%NoDup_cons [Heq|Hin]%elem_of_cons.
    + injection Heq as -> ->. by rewrite decide_True.
    + destruct (decide (k0 = k)) as [->|Hne]; [|by apply IH].
      exfalso. apply Hk0. apply list_elem_of_fmap. by exists (k, v).
Qed.

Lemma path_truthy_some r p : path_truthy r = Some p → r = Some p.
Proof.
  destruct r as [[|a s]|]; simpl; [done| |done]. by intros [= <-].
Qed.

Lemma collect_loop_sound caller_stop total futures order : ∀ c,
  results_sound futures c →
  results_sound futures (collect_loop caller_stop total futures order c).
Proof.
  induction order as [|i rest IH]; intros c Hc; [done|].
  cbn [collect_loop]. unfold read_stop.
  destruct (stop_set c || flag_at caller_stop (reads c)); [by apply IH|].
  destruct (futures !! i) as [[r| |exc]|] eqn:Hi; cbn [stop_set reads].
  - destruct (path_truthy r) as [p|] eqn:Hp.
    + apply IH. destruct Hc as [Hnd Hin]. split; cbn [results record_success].
      * by apply dict_set_NoDup.
      * intros k v [[= -> ->]|?]%dict_set_elem; [|by apply Hin].
        by rewrite Hi, (path_truthy_some _ _ Hp).
    + destruct (negb _); [done | by apply IH].
  - by apply IH.
  - by destruct (negb _).
  - by apply IH.
Qed.

End CollectorFacts.

(** ** The run *)

Section RunFacts.

Import Worker.

Variable wave_read : list Byte.byte → string + wave_params * list Byte.byte.
Variable wave_write : wave_params → list Byte.byte → list Byte.byte.
Variable env : os_env.

Lemma submit_loop_results caller_stop chunks : ∀ n c,
  results (submit_loop caller_stop chunks n c).2 = results c
  ∧ stop_set (submit_loop caller_stop chunks n c).2 = stop_set c
  ∧ (n ≤ (submit_loop caller_stop chunks n c).1 ≤ n + length chunks)%nat.
Proof.
  induction chunks as [|chunk rest IH]; intros n c; simpl.
  - split; [done|]. split; [done | lia].
  - destruct (stop_set c || flag_at caller_stop (reads c)); simpl.
    + split; [done|]. split; [done | lia].
    + destruct (IH (S n) {| results := results c; chunks_processed := chunks_processed c;
                            stop_set := stop_set c; reads := S (reads c);
                            emitted := emitted c |}) as (Hr & Hs & Hn).
      simpl in *. split; [done|]. split; [done | lia].
Qed.

(** The pool is made for twelve workers, line 62. *)
Lemma max_workers_default api_url text_to_speak output_filepath base_name :
  max_workers (init api_url text_to_speak output_filepath base_name) = 12.
Proof. reflexivity. Qed.

(** No more tasks are submitted than there are chunks. *)
Lemma submitted_le s w : (submitted s w ≤ length (text_chunks w))%nat.
Proof.
  unfold submitted.
  pose proof (submit_loop_results (caller_stop s) (text_chunks w) 0 (start_state w)).
  lia.
Qed.

Lemma tasks_done_length s w fs :
  (length (tasks_done env s w fs).1.1 ≤ length (text_chunks w))%nat.
Proof.
  unfold tasks_done. rewrite run_tasks_length, length_take. lia.
Qed.

Lemma collected_sound s w fs :
  results_sound (tasks_done env s w fs).1.1 (collected env s w fs).
Proof.
  unfold collected. apply collect_loop_sound.
  destruct (submit_loop_results (caller_stop s) (text_chunks w) 0 (start_state w))
    as (Hr & _). split; rewrite Hr; simpl; [constructor|].
  by intros k v ?%elem_of_nil.
Qed.

(** A dict sound for [n] futures at most that has [n] entries at least
    has an entry for each of them. *)
Lemma full_results_cover futures c n i :
  results_sound futures c → (length futures ≤ n)%nat →
  (n ≤ length (results c))%nat → (i < n)%nat →
  ∃ v, futures !! i = Some (Result (Some v)).
Proof.
  intros [Hnd Hin] Hlen Hn Hi.
  assert (Hsub : (results c).*1 ⊆+ seq 0 n).
  { apply NoDup_submseteq; [done|]. intros k [[k' v] [-> Hkv]]%list_elem_of_fmap.
    apply elem_of_seq. apply Hin, lookup_lt_Some in Hkv. simpl. lia. }
  apply submseteq_length_Permutation in Hsub;
    [|by rewrite length_seq, length_fmap].
  assert (Hi' : i ∈ (results c).*1).
  { rewrite Hsub. apply elem_of_seq. lia. }
  apply list_elem_of_fmap in Hi' as [[k v] [-> Hkv]]. exists v. by apply Hin.
Qed.



End RunFacts.


Lemma sample_paths_apart base :
  ∀ n, Worker.temp_output_path ("/tmp/" +:+ base) n ≠ "out/speech.wav".
Proof. intros n H. unfold Worker.temp_output_path in H. discriminate H. Qed.


(** ** A run in which every fetch succeeds *)

Section SuccessfulRun.

Import Worker.

Variable wave_read : list Byte.byte → string + wave_params * list Byte.byte.
Variable wave_write : wave_params → list Byte.byte → list Byte.byte.
Variable env : os_env.

Lemma submit_loop_no_stop chunks : ∀ n c,
  stop_set c = false →
  (submit_loop None chunks n c).1 = n + length chunks
  ∧ stop_set (submit_loop None chunks n c).2 = false
  ∧ results (submit_loop None chunks n c).2 = results c.
Proof.
  induction chunks as [|chunk rest IH]; intros n c Hc; simpl.
  - split; [lia | done].
  - rewrite Hc. simpl.
    destruct (IH (S n) {| results := results c; chunks_processed := chunks_processed c;
                          stop_set := false; reads := S (reads c);
                          emitted := emitted c |} eq_refl) as (Hn & Hs & Hr).
    simpl in *. split; [lia | done].
Qed.

Lemma path_truthy_nonempty p : p ≠ "" → path_truthy (Some p) = Some p.
Proof. by destruct p. Qed.

(** With no stop and only successes the dict gets the futures' paths in
    the order of completion. *)
Lemma collect_loop_all_succeed total futures (path_of : nat → string) order : ∀ c,
  stop_set c = false →
  (∀ k, k ∈ order → futures !! k = Some (Result (Some (path_of k))) ∧ path_of k ≠ "") →
  NoDup order → (∀ k, k ∈ order → k ∉ (results c).*1) →
  results (collect_loop None total futures order c)
  = results c ++ map (λ k, (k, path_of k)) order
  ∧ stop_set (collect_loop None total futures order c) = false.
Proof.
  induction order as [|i rest IH]; intros c Hc Hok Hnd Hfresh.
  - simpl. by rewrite app_nil_r.
  - cbn [collect_loop]. unfold read_stop. rewrite Hc. cbn [flag_at orb].
    destruct (Hok i) as [Hi Hne]; [by left|].
    rewrite Hi, (path_truthy_nonempty _ Hne).
    apply NoDup_cons in Hnd as [Hirest Hnd].
    destruct (IH (record_success
                    {| results := results c; chunks_processed := chunks_processed c;
                       stop_set := false; reads := S (reads c); emitted := emitted c |}
                    i (path_of i) total)) as [Hr Hs].
    + done.
    + intros k Hk. apply Hok. by right.
    + done.
    + intros k Hk. cbn [results record_success].
      rewrite dict_set_keys, decide_False by (apply Hfresh; by left).
      intros [?|?%list_elem_of_singleton]%elem_of_app.
      * by apply (Hfresh k); [right|].
      * by subst.
    + rewrite Hr, Hs. split; [|done]. cbn [results record_success map].
      rewrite dict_set_fresh by (apply Hfresh; by left).
      by rewrite <- app_assoc.
Qed.

Lemma Sorted_seq_le i n : Sorted (≤)%nat (seq i n).
Proof.
  revert i. induction n as [|n IH]; intros i; simpl; [constructor|].
  constructor; [apply IH|]. destruct n; simpl; constructor. lia.
Qed.

(** The files in the order of the chunks, whatever the order in which
    the futures completed. *)
Lemma ordered_temp_files_permutation (path_of : nat → string) order n :
  order ≡ₚ seq 0 n →
  ordered_temp_files (map (λ k, (k, path_of k)) order) = map path_of (seq 0 n).
Proof.
  intros Hperm. unfold ordered_temp_files.
  assert (Hkeys : (map (λ k, (k, path_of k)) order).*1 = order).
  { clear. induction order as [|k rest IH]; simpl; [done|]. f_equal. exact IH. }
  rewrite Hkeys.
  assert (Hsort : merge_sort (≤)%nat order = seq 0 n).
  { apply (Sorted_unique (≤)%nat).
    - apply Sorted_merge_sort. apply _.
    - apply Sorted_seq_le.
    - by rewrite merge_sort_Permutation. }
  rewrite Hsort.
  assert (Hnd : NoDup order) by (rewrite Hperm; apply NoDup_seq).
  assert (Hlook : ∀ k, k ∈ seq 0 n →
            dict_lookup k (map (λ k, (k, path_of k)) order) = Some (path_of k)).
  { intros k Hk. apply dict_lookup_elem; [by rewrite Hkeys|].
    apply list_elem_of_In, in_map_iff. exists k. split; [done|].
    apply list_elem_of_In. by rewrite Hperm. }
  revert Hlook. generalize (seq 0 n). intros l Hlook.
  induction l as [|k rest IH]; [done|].
  simpl. rewrite Hlook by (by left). simpl. f_equal.
  apply IH. intros k' Hk'. apply Hlook. by right.
Qed.


Lemma lookup_map_seq {A} (f : nat → A) n k :
  (k < n)%nat → map f (seq 0 n) !! k = Some (f k).
Proof.
  intros Hk. change (map f (seq 0 n)) with (f <$> seq 0 n).
  rewrite list_lookup_fmap, lookup_seq_lt by done. done.
Qed.


Section OneRun.

Variable s : schedule.
Variable w : worker.
Variable fs : filesystem.
Variable bodies : nat → list Byte.byte.
Variable segments : nat → wave_params * list Byte.byte.

Local Abbreviation total := (length (text_chunks w)).
Local Abbreviation path_of := (chunk_temp_path w).

Hypothesis no_stop : caller_stop s = None.
Hypothesis fetched : ∀ i chunk, text_chunks w !! i = Some chunk →
  fetch_succeeds env w (fates s) i chunk (bodies i).
Hypothesis audio : ∀ i, (i < total)%nat → wave_read (bodies i) = inr (segments i).
Hypothesis completed : completion_order s ≡ₚ seq 0 total.

Lemma all_submitted : submitted s w = total.
Proof.
  unfold submitted. rewrite no_stop.
  by destruct (submit_loop_no_stop (text_chunks w) 0 (start_state w) eq_refl) as (-> & _).
Qed.

Lemma tasks_all_done :
  (tasks_done env s w fs).1.1 = map (λ k, Result (Some (path_of k))) (seq 0 total)
  ∧ (∀ k, (k < total)%nat → (tasks_done env s w fs).1.2 !! path_of k = Some (bodies k))
  ∧ (∀ q, (∀ n, temp_output_path (temp_base_name w) n ≠ q) →
       (tasks_done env s w fs).1.2 !! q = fs !! q).
Proof.
  unfold tasks_done. rewrite all_submitted, firstn_all.
  destruct (run_tasks_all_succeed env w (fates s) bodies (text_chunks w) 0 fs fetched)
    as (Ho & Hf & _).
  split; [done|]. split.
  - intros k Hk. apply Hf. lia.
  - intros q Hq. by apply run_tasks_other_files.
Qed.

Lemma all_collected :
  results (collected env s w fs) = map (λ k, (k, path_of k)) (completion_order s)
  ∧ stop_set (collected env s w fs) = false.
Proof.
  unfold collected. rewrite no_stop.
  destruct (submit_loop_no_stop (text_chunks w) 0 (start_state w) eq_refl)
    as (_ & Hs & Hr).
  destruct (collect_loop_all_succeed (length (text_chunks w))
              (tasks_done env s w fs).1.1 path_of (completion_order s)
              (submit_loop None (text_chunks w) 0 (start_state w)).2) as [Hres Hstop].
  - done.
  - intros k Hk. rewrite completed in Hk. apply elem_of_seq in Hk.
    split; [|apply temp_output_path_nonempty].
    destruct tasks_all_done as (-> & _).
    apply (lookup_map_seq (λ k, Result (Some (path_of k)))). lia.
  - rewrite completed. apply NoDup_seq.
  - intros k _. rewrite Hr. apply not_elem_of_nil.
  - by rewrite Hres, Hr.
Qed.

Hypothesis some_chunk : (0 < total)%nat.
Hypothesis output_opens : open_error env (final_output_filepath w) = None.
Hypothesis output_dir_there :
  output_dir s = "" ∨ output_dir_exists s = true ∨ makedirs_error s = None.
Hypothesis output_apart :
  ∀ n, temp_output_path (temp_base_name w) n ≠ final_output_filepath w.



End OneRun.

End SuccessfulRun.



(** C3, where the code departs from it: temporary files are left behind.
    When the connection breaks in the middle of a body, the fetcher
    returns no path and leaves the partial file, which the run does not
    delete; and when a chunk fails, the files of the chunks whose futures
    the loop had not come to are not deleted either. *)
Theorem temporary_files_left_behind :
  let base := "/tmp/piper_chunk_speech.wav_20250101120000" in
  let broken := Worker.run Sample.wave_read Sample.wave_write Sample.os
                  Sample.stream_breaks Sample.one_chunk ∅ in
  let failed := Worker.run Sample.wave_read Sample.wave_write Sample.os
                  Sample.second_fails Sample.three_chunks ∅ in
  (Worker.tasks_done Sample.os Sample.stream_breaks Sample.one_chunk ∅).1.1
  = [Worker.Result None]
  ∧ Worker.final_fs broken !! Worker.temp_output_path base 1
    = Some [Byte.x01; Byte.x0a]
  ∧ last (Worker.run_signals broken) = Some Worker.synthesis_finished
  ∧ (Worker.tasks_done Sample.os Sample.second_fails Sample.three_chunks ∅).1.1
    = [Worker.Result (Some (Worker.temp_output_path base 1));
       Worker.Result None;
       Worker.Result (Some (Worker.temp_output_path base 3))]
  ∧ Worker.final_fs failed !! Worker.temp_output_path base 1 = Some (Sample.body 0)
  ∧ Worker.final_fs failed !! Worker.temp_output_path base 3 = Some (Sample.body 2)
  ∧ Worker.final_fs failed !! "out/speech.wav" = None.
Proof. vm_compute. repeat split; reflexivity. Qed.

(** * Further properties *)

(** ** TextChunker *)

Section ChunkShape.

Import ChunkerSpec Notions.

Lemma strip_Forall (P : char → Prop) s : Forall P s → Forall P (strip s).
Proof.
  destruct (strip_decompose s) as (pre & suf & Hs). rewrite Hs at 1.
  intros H. apply Forall_app in H as [_ H]. by apply Forall_app in H as [H _].
Qed.

Lemma cons_first_Forall (P : char → Prop) c l :
  P c → Forall (Forall P) l → Forall (Forall P) (cons_first c l).
Proof.
  intros Hc Hl. destruct l as [|f fs]; simpl.
  - by repeat constructor.
  - apply Forall_cons in Hl as [Hf Hfs]. by repeat constructor.
Qed.

(** Every character of a fragment of the split is one of the string. *)
Lemma split_Forall (P : char → Prop) : ∀ n s,
  (length s ≤ n)%nat → Forall P s → Forall (Forall P) (split_dot_space s).
Proof.
  induction n as [|n IH]; intros s Hn Hs.
  - destruct s; [by repeat constructor | simpl in Hn; lia].
  - destruct s as [|c [|d s]].
    { by repeat constructor. }
    { simpl. constructor; [done | constructor]. }
    rewrite split_cons2.
    apply Forall_cons in Hs as [Hc Hs].
    destruct ((c =? DOT)%N && (d =? SP)%N).
    + constructor; [constructor|].
      apply IH; [simpl in Hn; lia|]. by apply Forall_cons in Hs as [_ Hs].
    + apply cons_first_Forall; [done|]. apply IH; [simpl in *; lia | done].
Qed.

Lemma cons_first_length c l : l ≠ [] → length (cons_first c l) = length l.
Proof. by destruct l. Qed.

(** The split has one fragment more than there are delimiters. *)
Lemma split_length : ∀ n s,
  (length s ≤ n)%nat → length (split_dot_space s) = S (count_dot_space s).
Proof.
  induction n as [|n IH]; intros s Hn.
  - destruct s; [done | simpl in Hn; lia].
  - destruct s as [|c [|d s]]; [done|done|].
    rewrite split_cons2.
    change (count_dot_space (c :: d :: s))
      with ((if (c =? DOT)%N && (d =? SP)%N then 1 else 0) + count_dot_space (d :: s)).
    destruct ((c =? DOT)%N && (d =? SP)%N) eqn:Hm.
    + apply andb_true_iff in Hm as [_ Hd]. apply N.eqb_eq in Hd as ->.
      simpl length. rewrite IH by (simpl in Hn; lia).
      destruct s as [|e s]; [done|].
      change (count_dot_space (SP :: e :: s))
        with ((if (SP =? DOT)%N && (e =? SP)%N then 1 else 0) + count_dot_space (e :: s)).
      done.
    + rewrite cons_first_length by apply split_nonempty.
      apply IH. simpl in *; lia.
Qed.

Lemma chunk_loop_length potential_chunks : ∀ n i acc,
  (length (Chunker.chunk_loop n i potential_chunks acc)
   ≤ length acc + length potential_chunks)%nat.
Proof.
  induction potential_chunks as [|x l IH]; intros n i acc; [simpl; lia|].
  rewrite chunk_loop_cons. etrans; [apply IH|].
  destruct (strip x); simpl; rewrite ?length_app; simpl; lia.
Qed.

(** A chunk is a trimmed fragment of the split that is not empty, with a
    period after it or not. *)
Lemma chunk_loop_elem potential_chunks chunk : ∀ n i acc,
  chunk ∈ Chunker.chunk_loop n i potential_chunks acc →
  chunk ∈ acc
  ∨ ∃ f, f ∈ potential_chunks ∧ strip f ≠ []
         ∧ (chunk = strip f ∨ chunk = strip f ++ [DOT]).
Proof.
  induction potential_chunks as [|x l IH]; intros n i acc Hin; [by left|].
  rewrite chunk_loop_cons in Hin. apply IH in Hin as [Hin|(f & Hf & Hne & Hc)].
  - destruct (strip x) as [|c t] eqn:Hx; [by left|].
    apply elem_of_app in Hin as [Hin|Hin%list_elem_of_singleton]; [by left|].
    right. exists x. split; [by left|]. rewrite Hx. split; [done|].
    destruct (bool_decide (i < n - 1)); [by right | by left].
  - right. exists f. split; [by right | done].
Qed.

Lemma text_chunks_elem text chunk :
  chunk ∈ Chunker.text_chunks text →
  ∃ f, f ∈ split_dot_space (Chunker.processed_text text)
       ∧ strip f ≠ [] ∧ (chunk = strip f ∨ chunk = strip f ++ [DOT]).
Proof.
  unfold Chunker.text_chunks. intros [Hin|H]%chunk_loop_elem; [|done].
  by apply elem_of_nil in Hin.
Qed.

Lemma processed_text_Forall text :
  Forall (λ c, c ≠ LF ∧ c ≠ CR) (Chunker.processed_text text).
Proof.
  induction text as [|c t IH]; [constructor|].
  rewrite processed_text_cons. destruct (decide (c = CR)) as [->|Hr]; [done|].
  constructor; [|done]. destruct (N.eqb_spec c LF) as [->|Hl]; done.
Qed.

End ChunkShape.

(** X1: no chunk is empty, and no chunk begins or ends with whitespace. *)
Theorem chunks_are_trimmed text chunk :
  chunk ∈ Chunker.text_chunks text →
  chunk ≠ []
  ∧ (∀ c, head chunk = Some c → isspace c = false)
  ∧ (∀ c, last chunk = Some c → isspace c = false).
Proof.
  intros (f & _ & Hne & [->| ->])%text_chunks_elem.
  - split; [done|]. split; [apply strip_head | apply strip_last].
  - split; [by destruct (strip f)|]. split.
    + intros c. destruct (strip f) as [|d t] eqn:Hf; [done|].
      simpl. intros [= <-]. apply (strip_head f). by rewrite Hf.
    + intros c. rewrite last_snoc. by intros [= <-].
Qed.

Lemma chunks_are_trimmed_witness :
  lit "b" ≠ []
  ∧ (∀ c, head (lit "b") = Some c → isspace c = false)
  ∧ (∀ c, last (lit "b") = Some c → isspace c = false).
Proof.
  apply (chunks_are_trimmed (lit "  a . " ++ [LF] ++ lit " b  ")).
  vm_compute. right. left.
Defined.

(** X2: no chunk holds a line feed or a carriage return. *)
Theorem chunks_have_no_line_breaks text chunk :
  chunk ∈ Chunker.text_chunks text → Forall (λ c, c ≠ LF ∧ c ≠ CR) chunk.
Proof.
  intros (f & Hf & _ & Hc)%text_chunks_elem.
  assert (Hfrag : Forall (λ c, c ≠ LF ∧ c ≠ CR) (strip f)).
  { apply strip_Forall.
    pose proof (split_Forall (λ c, c ≠ LF ∧ c ≠ CR) _ _ (le_n _)
                  (processed_text_Forall text)) as Hall.
    rewrite Forall_forall in Hall. by apply Hall. }
  destruct Hc as [->| ->]; [done|].
  apply Forall_app. split; [done|]. by repeat constructor.
Qed.

Lemma chunks_have_no_line_breaks_witness :
  Forall (λ c, c ≠ LF ∧ c ≠ CR) (lit "one two.").
Proof.
  apply (chunks_have_no_line_breaks (lit "one" ++ [CR; LF] ++ lit "two. three")).
  vm_compute. left.
Defined.

(** X3: every chunk before the last one ends with a period. *)
Theorem chunks_before_last_end_with_period text i chunk :
  Chunker.text_chunks text !! i = Some chunk →
  (i + 1 < length (Chunker.text_chunks text))%nat →
  last chunk = Some DOT.
Proof.
  unfold Chunker.text_chunks. rewrite chunk_loop_spec by done. simpl.
  generalize (split_dot_space (Chunker.processed_text text)).
  intros l Hi Hlen.
  assert (Hlast : (length (Notions.trim_and_drop (drop (length l - 1) l)) ≤ 1)%nat).
  { unfold Notions.trim_and_drop. etrans; [apply length_filter|].
    rewrite length_map, length_drop. lia. }
  rewrite length_app in Hlen.
  rewrite lookup_app_l in Hi by (unfold str in *; lia).
  apply list_elem_of_lookup_2, list_elem_of_In, in_map_iff in Hi as (t & <- & _).
  unfold ChunkerSpec.add_period. by rewrite last_snoc.
Qed.

Lemma chunks_before_last_end_with_period_witness :
  last (lit "This is a test.") = Some DOT.
Proof.
  apply (chunks_before_last_end_with_period
           (lit "Hello world. This is a test. Final sentence") 1).
  - vm_compute. reflexivity.
  - vm_compute. lia.
Defined.

(** X4: there is at most one chunk more than the normalized text has
    delimiters. *)
Theorem chunks_bounded_by_delimiters text :
  (length (Chunker.text_chunks text)
   ≤ S (Notions.count_dot_space (Chunker.processed_text text)))%nat.
Proof.
  unfold Chunker.text_chunks. etrans; [apply chunk_loop_length|].
  simpl. by rewrite (split_length _ _ (le_n _)).
Qed.

(** ** The synthesize button and [start_synthesis] *)

(** X5: whenever the state of the entries enables the synthesize button
    and no worker is running, [start_synthesis] on the same entries turns
    nothing down and starts a worker on the chunks of the text. *)
Theorem enabled_button_starts_worker text_file_exists api_url output_filepath text :
  Window.update_synthesize_button_state text_file_exists api_url output_filepath text
  = true →
  Gui.start_synthesis false text api_url output_filepath
  = Gui.WorkerStarted (Chunker.text_chunks text).
Proof.
  unfold Window.update_synthesize_button_state, Gui.start_synthesis.
  intros H. repeat (apply andb_true_iff in H as [H ?]).
  repeat match goal with
         | H : negb (bool_decide _) = true |- _ =>
             apply negb_true_iff, bool_decide_eq_false in H
         end.
  match goal with H : startswith _ _ = true |- _ => rewrite H end. simpl.
  destruct (strip text); [done|]. by destruct (strip output_filepath).
Qed.

Lemma enabled_button_starts_worker_witness :
  Gui.start_synthesis false (lit "Hello world") (lit " http://localhost:5100 ")
    (lit "out/speech.wav")
  = Gui.WorkerStarted [lit "Hello world"].
Proof.
  apply (enabled_button_starts_worker true). vm_compute. reflexivity.
Defined.

(** ** The synthesis server, further *)

Section ServerMore.

Import Server.

Lemma first_surrogate_none s : ∀ i,
  first_surrogate s i = None ↔ Forall (λ c, is_surrogate c = false) s.
Proof.
  induction s as [|c s IH]; intros i; simpl.
  - split; [constructor | done].
  - destruct (is_surrogate c) eqn:Hc.
    + split; [done|]. intros [? _]%Forall_cons. congruence.
    + rewrite IH. split; [by constructor | by intros [_ ?]%Forall_cons].
Qed.

(** A string encodes as UTF-8 exactly when it holds no surrogate. *)
Lemma encode_error_none s :
  encode_error s = None ↔ Forall (λ c, is_surrogate c = false) s.
Proof.
  rewrite <- (first_surrogate_none s 0). unfold encode_error.
  by destruct (first_surrogate s 0) as [[start rest]|].
Qed.

End ServerMore.

(** X6: the server answers with audio exactly when the request is JSON,
    its body is an object whose 'text' is a string that is not empty and
    holds no surrogate code point, so that it encodes as UTF-8, and Piper
    ends with code 0 and some output; the audio is that output. *)
Theorem audio_is_piper_output piper req audio :
  Server.resp (Server.synthesize piper req) = Server.SendFile audio
  ↔ Server.is_json req = true
    ∧ (∃ items s, Server.parsed_body req = Some (Server.PDict items)
                  ∧ Server.dict_get (lit "text") items = Server.PStr s ∧ s ≠ []
                  ∧ Forall (λ c, Server.is_surrogate c = false) s)
    ∧ (∃ stderr_text, piper = Server.PiperExits 0 audio stderr_text)
    ∧ audio ≠ [].
Proof.
  unfold Server.synthesize. split.
  - destruct (Server.is_json req); [|done]. simpl.
    destruct (Server.parsed_body req) as [[| | | | |l|items]|]; try done.
    destruct (Server.dict_get (lit "text") items) as [|b|z|f|s|l|d] eqn:Ht;
      simpl; try done; repeat (case_match; simpl; try done).
    all: unfold Server.run_piper; repeat (case_match; simpl; try done).
    intros [= <-]. split; [done|].
    match goal with H : Server.encode_error _ = None |- _ =>
      apply encode_error_none in H end.
    split; [by eauto 10|].
    match goal with H : negb (_ =? 0)%Z = false |- _ =>
      apply negb_false_iff, Z.eqb_eq in H; subst end.
    split; [by eauto | done].
  - intros (-> & (items & s & -> & Ht & Hs & Henc) & (e & ->) & Ha). simpl.
    rewrite Ht. apply encode_error_none in Henc.
    destruct s; [done|]. simpl. rewrite Henc. by destruct audio.
Qed.

(** A 'text' with a surrogate on its own: Piper's audio is not sent. *)
Lemma lone_surrogate_gives_500 :
  let req text := {| Server.is_json := true;
                     Server.parsed_body :=
                       Some (Server.PDict [(lit "text", Server.PStr text)]) |} in
  let piper := Server.PiperExits 0 [Byte.x01] [] in
  Server.synthesize piper (req [55296%N])
  = {| Server.resp := Server.Jsonify
         (Server.error_body
            (lit "An unexpected error occurred on the server: 'utf-8' codec can't encode character '\ud800' in position 0: surrogates not allowed"))
         500;
       Server.popen_calls := 1 |}
  ∧ Server.resp (Server.synthesize piper (req [97; 56320; 56321; 56322; 98]%N))
    = Server.Jsonify
        (Server.error_body
           (lit "An unexpected error occurred on the server: 'utf-8' codec can't encode characters in position 1-3: surrogates not allowed"))
        500.
Proof. vm_compute. split; reflexivity. Qed.

(** X7: one request calls [subprocess.Popen] at most once, and calls it
    exactly when the request is JSON and its body is an object whose
    'text' is true and can be sliced. Whether a Piper process starts
    then is up to [Popen], which raises when the executable is missing. *)
Theorem popen_called_at_most_once piper req :
  (Server.popen_calls (Server.synthesize piper req) ≤ 1)%nat
  ∧ (Server.popen_calls (Server.synthesize piper req) = 1
     ↔ Server.is_json req = true
       ∧ ∃ items, Server.parsed_body req = Some (Server.PDict items)
                  ∧ Server.truthy (Server.dict_get (lit "text") items) = true
                  ∧ Server.sliceable (Server.dict_get (lit "text") items) = true).
Proof.
  assert (Hrun : ∀ v, Server.popen_calls (Server.run_piper piper v) = 1).
  { intros v. unfold Server.run_piper. by repeat (case_match; simpl). }
  unfold Server.synthesize. destruct (Server.is_json req); simpl.
  2:{ split; [lia|]. split; [done | by intros [? _]]. }
  destruct (Server.parsed_body req) as [[| | | | |l|items]|]; simpl;
    try (split; [lia|]; split; [done | by intros (_ & ? & ? & _)]).
  destruct (Server.truthy (Server.dict_get (lit "text") items)) eqn:Ht; simpl.
  2:{ split; [lia|]. split; [done|]. intros (_ & its & [= <-] & Ht' & _). congruence. }
  destruct (Server.sliceable (Server.dict_get (lit "text") items)) eqn:Hs; simpl.
  - rewrite Hrun. split; [lia|]. split; [|done]. intros _. split; [done|]. eauto.
  - split; [lia|]. split; [done|]. intros (_ & its & [= <-] & _ & Hs'). congruence.
Qed.

(** X8: every answer is audio with status 200, or has status 400 or 500;
    a JSON answer holds an 'error' field and nothing else; audio is never
    empty; only answers after the checks of the request have called
    [subprocess.Popen]. *)
Theorem answers_classified piper req :
  match Server.resp (Server.synthesize piper req) with
  | Server.Jsonify body status =>
      (status = 400 ∨ status = 500)%Z
      ∧ (∃ msg, body = Server.PDict [(lit "error", Server.PStr msg)])
      ∧ (status = 400%Z → Server.popen_calls (Server.synthesize piper req) = 0)
  | Server.HttpException status =>
      (status = 400 ∨ status = 500)%Z
      ∧ Server.popen_calls (Server.synthesize piper req) = 0
  | Server.SendFile audio =>
      audio ≠ [] ∧ Server.popen_calls (Server.synthesize piper req) = 1
  end.
Proof.
  unfold Server.synthesize, Server.run_piper, Server.no_call, Server.error_body.
  repeat (case_match; simpl in *; simplify_eq; try done);
    repeat split; eauto; try done.
Qed.

(** X9: a 'text' that is true but not a string is not turned down with
    400: the answer has status 500, and when the 'text' is a list
    [subprocess.Popen] has been called by then. *)
Theorem non_string_text_gives_500 piper req items :
  Server.is_json req = true →
  Server.parsed_body req = Some (Server.PDict items) →
  Server.truthy (Server.dict_get (lit "text") items) = true →
  (∀ s, Server.dict_get (lit "text") items ≠ Server.PStr s) →
  (Server.resp (Server.synthesize piper req) = Server.HttpException 500
   ∧ Server.popen_calls (Server.synthesize piper req) = 0)
  ∨ (∃ msg l, Server.resp (Server.synthesize piper req)
              = Server.Jsonify (Server.error_body msg) 500
              ∧ Server.dict_get (lit "text") items = Server.PList l
              ∧ Server.popen_calls (Server.synthesize piper req) = 1).
Proof.
  intros Hj Hb Ht Hs. unfold Server.synthesize. rewrite Hj, Hb, Ht. simpl.
  destruct (Server.dict_get (lit "text") items) as [|b|z|f|s|l|d] eqn:Htext;
    simpl; try (by left).
  - by destruct (Hs s).
  - right. unfold Server.run_piper.
    destruct piper as [|e|code out err]; simpl; eauto 10.
Qed.

Lemma non_string_text_gives_500_witness :
  let piper := Server.PiperExits 0 [Byte.x01] [] in
  let number := {| Server.is_json := true;
                   Server.parsed_body :=
                     Some (Server.PDict [(lit "text", Server.PInt 5)]) |} in
  (Server.resp (Server.synthesize piper number) = Server.HttpException 500
   ∧ Server.popen_calls (Server.synthesize piper number) = 0)
  ∨ (∃ msg l, Server.resp (Server.synthesize piper number)
              = Server.Jsonify (Server.error_body msg) 500
              ∧ Server.dict_get (lit "text") [(lit "text", Server.PInt 5)]
                = Server.PList l
              ∧ Server.popen_calls (Server.synthesize piper number) = 1).
Proof.
  intros piper number.
  apply (non_string_text_gives_500 piper number [(lit "text", Server.PInt 5)]);
    try reflexivity.
  intros s H. vm_compute in H. discriminate H.
Defined.

(** ** ChunkFetcher, further *)

Section FetcherMore.

Import Worker.

(** The download loop: it only ever writes whole blocks in order; left
    without [break] it has written all of them, and it is left by [break]
    only when the flag is seen, which the next reading sees as well. *)
Lemma download_spec stop_from blocks : ∀ k i written,
  let r := download stop_from k i blocks written in
  (∃ j, r.2 = written ++ concat (take j blocks))
  ∧ (r.1.2 = false → r.2 = written ++ concat blocks)
  ∧ (r.1.2 = true → flag_at stop_from r.1.1 = true).
Proof.
  induction blocks as [|b rest IH]; intros k i written.
  - simpl. split; [exists 0; by rewrite app_nil_r|].
    split; [by rewrite app_nil_r | done].
  - cbn [download concat]. destruct (bool_decide (i mod 10 = 0)).
    + destruct (flag_at stop_from k) eqn:Hk.
      * simpl. split; [exists 0; by rewrite app_nil_r|]. split; [done|].
        intros _. by apply (flag_at_mono stop_from k); [lia|].
      * destruct (IH (S k) (S i) (written ++ b)) as ([j Hj] & Hall & Hbr).
        split; [exists (S j); by rewrite Hj, <- app_assoc|].
        split; [intros H; by rewrite (Hall H), <- app_assoc | done].
    + destruct (IH k (S i) (written ++ b)) as ([j Hj] & Hall & Hbr).
      split; [exists (S j); by rewrite Hj, <- app_assoc|].
      split; [intros H; by rewrite (Hall H), <- app_assoc | done].
Qed.

Lemma synthesize_chunk_returned env stop_from post n chunk path fs p :
  returned (_synthesize_chunk env stop_from post n chunk path fs) = Some p →
  p = path
  ∧ flag_at stop_from 0 = false ∧ flag_at stop_from 1 = false
  ∧ ∃ resp, post chunk = Responds resp ∧ status_code resp = 200%Z
            ∧ stream_error resp = None
            ∧ concat (content_blocks resp) ≠ []
            ∧ fs_after (_synthesize_chunk env stop_from post n chunk path fs)
              = <[path := concat (content_blocks resp)]> fs.
Proof.
  unfold _synthesize_chunk.
  destruct (flag_at stop_from 0) eqn:H0; [done|].
  destruct (post chunk) as [|e|e|resp] eqn:Hpost; simpl; try done;
    try (by destruct (flag_at stop_from 1)).
  destruct (flag_at stop_from 1) eqn:H1; [done|].
  destruct (bool_decide (status_code resp = 200%Z)) eqn:Hst; [|done].
  apply bool_decide_eq_true in Hst.
  destruct (open_error env path); [done|].
  pose proof (download_spec stop_from (content_blocks resp) 2 0 []) as (_ & Hall & Hbr).
  destruct (download stop_from 2 0 (content_blocks resp) []) as [[k broken] written].
  simpl in Hall, Hbr.
  destruct broken.
  - rewrite (Hbr eq_refl). by repeat (case_match; simpl).
  - rewrite (Hall eq_refl). simpl.
    destruct (stream_error resp) eqn:Hse; [done|].
    destruct (flag_at stop_from k); [by repeat (case_match; simpl)|].
    unfold exists_, getsize. rewrite lookup_insert_eq.
    rewrite bool_decide_eq_true_2 by eauto. simpl.
    destruct (concat (content_blocks resp)) as [|b0 body] eqn:Hbody.
    + simpl. by repeat (case_match; simpl).
    + rewrite bool_decide_eq_true_2 by (simpl; lia). simpl.
      intros [= <-]. split; [done|]. split; [done|]. split; [done|].
      exists resp. rewrite Hbody. by repeat split.
Qed.

(** A fetch that returns nothing and yet leaves a file where none was,
    though [os.remove] would not fail: the download loop was left by an
    exception. *)
Lemma synthesize_chunk_leftover env stop_from post n chunk path fs :
  fs !! path = None → remove_error env path = None →
  returned (_synthesize_chunk env stop_from post n chunk path fs) = None →
  is_Some (fs_after (_synthesize_chunk env stop_from post n chunk path fs) !! path) →
  ∃ resp e, post chunk = Responds resp ∧ status_code resp = 200%Z
            ∧ stream_error resp = Some e.
Proof.
  intros Hfs Hrm. unfold _synthesize_chunk.
  destruct (flag_at stop_from 0); simpl; [rewrite Hfs; by intros _ [? ?]|].
  destruct (post chunk) as [|e|e|resp] eqn:Hpost; simpl;
    try (rewrite Hfs; by intros _ [? ?]);
    try (destruct (flag_at stop_from 1); simpl; rewrite Hfs; by intros _ [? ?]).
  destruct (flag_at stop_from 1); simpl; [rewrite Hfs; by intros _ [? ?]|].
  destruct (bool_decide (status_code resp = 200%Z)) eqn:Hst;
    [|simpl; rewrite Hfs; by intros _ [? ?]].
  apply bool_decide_eq_true in Hst.
  destruct (open_error env path); simpl; [rewrite Hfs; by intros _ [? ?]|].
  destruct (download stop_from 2 0 (content_blocks resp) []) as [[k broken] written].
  rewrite Hrm. unfold exists_. rewrite lookup_insert_eq.
  rewrite bool_decide_eq_true_2 by eauto.
  destruct broken; simpl.
  - destruct (flag_at stop_from k); simpl.
    + rewrite lookup_delete_eq. by intros _ [? ?].
    + destruct (bool_decide _); simpl; [done|].
      rewrite lookup_delete_eq. by intros _ [? ?].
  - destruct (stream_error resp) as [e|] eqn:Hse; simpl; [by eauto|].
    destruct (flag_at stop_from k); simpl.
    + rewrite lookup_delete_eq. by intros _ [? ?].
    + destruct (bool_decide _); simpl; [done|].
      rewrite lookup_delete_eq. by intros _ [? ?].
Qed.

(** Only an answer with status 200 whose file can be opened gets the
    fetcher to touch the disk. *)
Lemma synthesize_chunk_disk_untouched env stop_from post n chunk path fs :
  (∀ resp, post chunk = Responds resp → status_code resp = 200%Z →
           is_Some (open_error env path)) →
  returned (_synthesize_chunk env stop_from post n chunk path fs) = None
  ∧ fs_after (_synthesize_chunk env stop_from post n chunk path fs) = fs.
Proof.
  intros H. unfold _synthesize_chunk.
  destruct (flag_at stop_from 0); [done|].
  destruct (post chunk) as [|e|e|resp] eqn:Hpost; simpl; try done;
    try (by destruct (flag_at stop_from 1)).
  destruct (flag_at stop_from 1); [done|].
  destruct (bool_decide (status_code resp = 200%Z)) eqn:Hst; [|done].
  apply bool_decide_eq_true in Hst.
  destruct (H resp eq_refl Hst) as [e ->]. done.
Qed.

End FetcherMore.

(** X10: a path that the fetcher returns is the path it was given, and
    the file there holds the whole body of a 200 answer, which is not
    empty; the fetcher had not seen the stop flag. *)
Theorem returned_path_holds_whole_body env stop_from post n chunk (path : string)
    (fs : Worker.filesystem) p :
  Worker.returned (Worker._synthesize_chunk env stop_from post n chunk path fs) = Some p →
  p = path
  ∧ Worker.flag_at stop_from 0 = false ∧ Worker.flag_at stop_from 1 = false
  ∧ ∃ resp, post chunk = Worker.Responds resp ∧ Worker.status_code resp = 200%Z
            ∧ Worker.stream_error resp = None
            ∧ concat (Worker.content_blocks resp) ≠ []
            ∧ Worker.fs_after (Worker._synthesize_chunk env stop_from post n chunk path fs)
              !! path = Some (concat (Worker.content_blocks resp)).
Proof.
  intros (-> & H0 & H1 & resp & Hpost & Hst & Hse & Hne & Hfs)%synthesize_chunk_returned.
  split; [done|]. split; [done|]. split; [done|].
  exists resp. rewrite Hfs, lookup_insert_eq. by repeat split.
Qed.

Lemma returned_path_holds_whole_body_witness :
  Worker.fs_after
    (Worker._synthesize_chunk Sample.os None (λ _, Sample.answers (Sample.body 0)) 1
       (lit "Hello world") "/tmp/piper_0001.wav" ∅) !! "/tmp/piper_0001.wav"
  = Some (Sample.body 0).
Proof.
  destruct (returned_path_holds_whole_body Sample.os None
              (λ _, Sample.answers (Sample.body 0)) 1 (lit "Hello world")
              "/tmp/piper_0001.wav" ∅ "/tmp/piper_0001.wav")
    as (_ & _ & _ & resp & Hpost & _ & _ & _ & Hfs).
  - vm_compute. reflexivity.
  - injection Hpost as <-. exact Hfs.
Defined.

(** X11: the fetcher changes no file but the one at the path it was
    given. *)
Theorem fetcher_keeps_other_files env stop_from post n chunk (path : string)
    (fs : Worker.filesystem) q :
  q ≠ path →
  Worker.fs_after (Worker._synthesize_chunk env stop_from post n chunk path fs) !! q
  = fs !! q.
Proof. apply synthesize_chunk_other_files. Qed.

Lemma fetcher_keeps_other_files_witness :
  Worker.fs_after
    (Worker._synthesize_chunk Sample.os None (λ _, Sample.answers (Sample.body 0)) 1
       (lit "Hello world") "/tmp/piper_0001.wav" Sample.some_files) !! "a.wav"
  = Sample.some_files !! "a.wav".
Proof. by apply fetcher_keeps_other_files. Defined.

(** X12: when the fetcher returns no path but leaves a file where there
    was none, and [os.remove] would not have failed, then the answer had
    status 200 and an exception ended the download loop: in every other
    case the fetcher removes what it wrote. *)
Theorem leftover_only_after_broken_download env stop_from post n chunk
    (path : string) (fs : Worker.filesystem) :
  fs !! path = None → Worker.remove_error env path = None →
  Worker.returned (Worker._synthesize_chunk env stop_from post n chunk path fs) = None →
  is_Some (Worker.fs_after (Worker._synthesize_chunk env stop_from post n chunk path fs)
             !! path) →
  ∃ resp e, post chunk = Worker.Responds resp ∧ Worker.status_code resp = 200%Z
            ∧ Worker.stream_error resp = Some e.
Proof. apply synthesize_chunk_leftover. Qed.

Lemma leftover_only_after_broken_download_witness :
  ∃ resp e, Sample.breaks_after [Byte.x01; Byte.x0a] = Worker.Responds resp
            ∧ Worker.status_code resp = 200%Z ∧ Worker.stream_error resp = Some e.
Proof.
  apply (leftover_only_after_broken_download Sample.os None
           (λ _, Sample.breaks_after [Byte.x01; Byte.x0a]) 1 (lit "Hello world")
           "/tmp/piper_0001.wav" ∅); try reflexivity.
  vm_compute. eauto.
Defined.

(** X13: unless the endpoint answers with status 200 and the temporary
    file can be opened, the fetcher returns no path and leaves the disk as
    it was: a timeout, a transport failure or an error answer writes
    nothing. *)
Theorem failed_request_writes_nothing env stop_from post n chunk (path : string)
    (fs : Worker.filesystem) :
  (∀ resp, post chunk = Worker.Responds resp → Worker.status_code resp = 200%Z →
           is_Some (Worker.open_error env path)) →
  Worker.returned (Worker._synthesize_chunk env stop_from post n chunk path fs) = None
  ∧ Worker.fs_after (Worker._synthesize_chunk env stop_from post n chunk path fs) = fs.
Proof. apply synthesize_chunk_disk_untouched. Qed.

Lemma failed_request_writes_nothing_witness :
  Worker.returned (Worker._synthesize_chunk Sample.os None (λ _, Sample.server_error) 1
                     (lit "Hello world") "/tmp/piper_0001.wav" Sample.some_files) = None
  ∧ Worker.fs_after (Worker._synthesize_chunk Sample.os None (λ _, Sample.server_error) 1
                       (lit "Hello world") "/tmp/piper_0001.wav" Sample.some_files)
    = Sample.some_files.
Proof.
  apply failed_request_writes_nothing.
  intros resp [= <-] Hst. vm_compute in Hst. discriminate Hst.
Defined.

(** ** TempArtifactJanitor, further *)

Section JanitorMore.

Import Worker.

Variable env : os_env.

Lemma delete_loop_keeps_refused files : ∀ fs count q,
  is_Some (remove_error env q) → (delete_loop env files fs count).1.1 !! q = fs !! q.
Proof.
  induction files as [|f rest IH]; intros fs count q Hq; [done|].
  cbn [delete_loop]. destruct (exists_ fs f); [|by apply IH].
  destruct (remove_error env f) eqn:Hf.
  - specialize (IH fs count q Hq).
    destruct (delete_loop env rest fs count) as [[fs' c] l]. exact IH.
  - rewrite IH by done. apply lookup_delete_ne. intros ->.
    rewrite Hf in Hq. by destruct Hq.
Qed.

(** What [deleted_count] counts are the files that are gone. *)
Lemma delete_loop_count files : ∀ fs count,
  (delete_loop env files fs count).1.2 + size (delete_loop env files fs count).1.1
  = count + size fs.
Proof.
  induction files as [|f rest IH]; intros fs count; [done|].
  cbn [delete_loop]. destruct (exists_ fs f) eqn:He; [|by apply IH].
  destruct (remove_error env f).
  - specialize (IH fs count).
    destruct (delete_loop env rest fs count) as [[fs' c] l]. exact IH.
  - rewrite IH. unfold exists_ in He. apply bool_decide_eq_true in He.
    rewrite map_size_delete_Some by done.
    destruct He as [d Hd]. pose proof (map_size_ne_0_lookup_2 fs f (ltac:(eauto))).
    lia.
Qed.

End JanitorMore.

(** X14: after the cleanup, the listed files that [os.remove] accepts
    are gone, whether or not the removal of another one failed, and every
    other file is as it was. *)
Theorem cleanup_result env (files : list string) (fs : Worker.filesystem) q :
  (Worker._cleanup_temp_files env files fs).1 !! q
  = if decide (q ∈ files ∧ Worker.remove_error env q = None) then None else fs !! q.
Proof.
  destruct (decide (q ∈ files ∧ Worker.remove_error env q = None)) as [[Hin Hrm]|Hno].
  - by apply cleanup_deletes.
  - destruct (decide (q ∈ files)) as [Hin|Hin]; [|by apply cleanup_other_files].
    assert (Hq : is_Some (Worker.remove_error env q)).
    { destruct (Worker.remove_error env q) eqn:E; [by eauto|]. by destruct Hno. }
    unfold Worker._cleanup_temp_files. destruct files as [|f rest]; [done|].
    pose proof (delete_loop_keeps_refused env (f :: rest) fs 0 q Hq) as H.
    destruct (Worker.delete_loop env (f :: rest) fs 0) as [[fs' c] l]. exact H.
Qed.

(** X15: the number in the last line that the cleanup logs is the number
    of files that are gone from the disk; for an empty list nothing is
    logged and nothing done. *)
Theorem cleanup_reports_deleted_files env (files : list string)
    (fs : Worker.filesystem) :
  match files with
  | [] => Worker._cleanup_temp_files env files fs = (fs, [])
  | _ :: _ =>
      last (Worker._cleanup_temp_files env files fs).2
      = Some (Worker.log_message
                ("Deleted "
                 +:+ pretty (size fs - size (Worker._cleanup_temp_files env files fs).1)
                 +:+ " temporary files.") Worker.INFO)
  end.
Proof.
  destruct files as [|f rest]; [done|]. unfold Worker._cleanup_temp_files.
  pose proof (delete_loop_count env (f :: rest) fs 0) as H.
  destruct (Worker.delete_loop env (f :: rest) fs 0) as [[fs' c] l]. simpl in *.
  rewrite app_comm_cons, last_snoc.
  by replace (size fs - size fs') with c by lia.
Qed.

(** ** AudioStitcher, further *)

Section StitcherMore.

Import Worker.

Variable wave_read : list Byte.byte → string + wave_params * list Byte.byte.
Variable wave_write : wave_params → list Byte.byte → list Byte.byte.
Variable env : os_env.

Lemma combine_other_files input_files output_file fs f :
  f ≠ output_file →
  fs_combined (_combine_wav_files wave_read wave_write env input_files output_file fs)
    !! f = fs !! f.
Proof.
  intros Hf. unfold _combine_wav_files.
  repeat (case_match; simpl; try done).
  all: by rewrite !lookup_insert_ne.
Qed.

(** A file that is missing or empty does not pass the check of line 272. *)
Lemma missing_or_empty_invalid (fs : filesystem) f :
  fs !! f = None ∨ fs !! f = Some [] → valid_file fs f = false.
Proof. unfold valid_file, exists_, getsize. by intros [-> | ->]. Qed.

Lemma combine_skips before f after output_file fs :
  fs !! f = None ∨ fs !! f = Some [] →
  before ++ after ≠ [] →
  _combine_wav_files wave_read wave_write env (before ++ f :: after) output_file fs
  = _combine_wav_files wave_read wave_write env (before ++ after) output_file fs.
Proof.
  intros Hf%missing_or_empty_invalid Hne. unfold _combine_wav_files.
  rewrite !filter_app, filter_cons_False by (by apply Is_true_false_2).
  destruct (before ++ f :: after) as [|x l] eqn:H1; [by destruct before|].
  by destruct (before ++ after) as [|y l'].
Qed.



End StitcherMore.

(** X16: the stitcher changes no file but the output file. *)
Theorem stitcher_keeps_other_files wave_read wave_write env
    (input_files : list string) (output_file : string) (fs : Worker.filesystem) f :
  f ≠ output_file →
  Worker.fs_combined
    (Worker._combine_wav_files wave_read wave_write env input_files output_file fs)
    !! f = fs !! f.
Proof. apply combine_other_files. Qed.

Lemma stitcher_keeps_other_files_witness :
  Worker.fs_combined
    (Worker._combine_wav_files Sample.wave_read Sample.wave_write Sample.os
       ["a.wav"; "b.wav"] "out.wav" Sample.some_files) !! "a.wav"
  = Sample.some_files !! "a.wav".
Proof. by apply stitcher_keeps_other_files. Defined.

(** X17: files that are missing or empty count for nothing: the
    stitcher does with a list that has such a file in it what it does with
    the list without that file, as long as the list holds another file. *)
Theorem stitcher_skips_missing_and_empty_files wave_read wave_write env
    (before : list string) (f : string) (after : list string)
    (output_file : string) (fs : Worker.filesystem) :
  fs !! f = None ∨ fs !! f = Some [] →
  before ++ after ≠ [] →
  Worker._combine_wav_files wave_read wave_write env (before ++ f :: after)
    output_file fs
  = Worker._combine_wav_files wave_read wave_write env (before ++ after)
      output_file fs.
Proof. apply combine_skips. Qed.

Lemma stitcher_skips_missing_and_empty_files_witness :
  Worker._combine_wav_files Sample.wave_read Sample.wave_write Sample.os
    (["a.wav"] ++ "empty.wav" :: ["b.wav"]) "out.wav" Sample.some_files
  = Worker._combine_wav_files Sample.wave_read Sample.wave_write Sample.os
      (["a.wav"] ++ ["b.wav"]) "out.wav" Sample.some_files
  ∧ Worker._combine_wav_files Sample.wave_read Sample.wave_write Sample.os
      ([] ++ "missing.wav" :: ["a.wav"]) "out.wav" Sample.some_files
    = Worker._combine_wav_files Sample.wave_read Sample.wave_write Sample.os
        ([] ++ ["a.wav"]) "out.wav" Sample.some_files.
Proof.
  split.
  - apply stitcher_skips_missing_and_empty_files; [|done]. right. reflexivity.
  - apply stitcher_skips_missing_and_empty_files; [|done]. left. reflexivity.
Defined.



(** ** Temporary file names, further *)

(** X19: the temporary files of two different chunk numbers are
    different files. *)
Theorem temp_paths_differ base n m :
  n ≠ m → Worker.temp_output_path base n ≠ Worker.temp_output_path base m.
Proof. intros Hnm H. by apply temp_output_path_inj in H. Qed.

Lemma temp_paths_differ_witness :
  Worker.temp_output_path "/tmp/piper" 1 ≠ Worker.temp_output_path "/tmp/piper" 10.
Proof. apply temp_paths_differ. lia. Defined.

(** ** The signals of a run *)

Section RunSignals.

Import Worker Notions.

Ltac severity := cbv [from_loop log_line INFO WARNING ERROR CRITICAL]; lia.

Lemma criticals_app l1 l2 : criticals (l1 ++ l2) = criticals l1 + criticals l2.
Proof. unfold criticals. by rewrite List.filter_app, length_app. Qed.

Lemma log_lines_no_critical l : Forall log_line l → criticals l = 0.
Proof.
  induction 1 as [|s l Hs _ IH]; [done|].
  destruct s; first [done | exact IH].
Qed.

Lemma log_line_from_loop s : log_line s → from_loop s.
Proof. by destruct s. Qed.

Lemma from_loop_in_between s : from_loop s → in_between s.
Proof. by destruct s. Qed.

Lemma delete_loop_log env files : ∀ fs count,
  Forall log_line (delete_loop env files fs count).2.
Proof.
  induction files as [|f rest IH]; intros fs count; [constructor|].
  cbn [delete_loop]. destruct (exists_ fs f); [|apply IH].
  destruct (remove_error env f); [|apply IH].
  specialize (IH fs count).
  destruct (delete_loop env rest fs count) as [[fs' c] l]. simpl in *.
  constructor; [severity | done].
Qed.

Lemma cleanup_log env files fs : Forall log_line (_cleanup_temp_files env files fs).2.
Proof.
  unfold _cleanup_temp_files. destruct files as [|f rest]; [constructor|].
  pose proof (delete_loop_log env (f :: rest) fs 0) as H.
  destruct (delete_loop env (f :: rest) fs 0) as [[fs' c] l]. simpl in *.
  constructor; [severity|]. apply Forall_app. split; [done|].
  constructor; [severity | constructor].
Qed.

Lemma write_loop_log wave_read params fs files : ∀ written,
  Forall log_line (write_loop wave_read params fs files written).2.
Proof.
  induction files as [|f rest IH]; intros written; [constructor|].
  cbn [write_loop]. destruct (wave_open_read wave_read fs f) as [e|[p frames]];
    [constructor|].
  specialize (IH (written ++ frames)).
  destruct (write_loop wave_read params fs rest (written ++ frames)) as [[err w] l].
  simpl in *. apply Forall_app. split; [|done].
  destruct (decide (p ≠ params)); [|constructor].
  constructor; [severity | constructor].
Qed.

Lemma combine_log_lines wave_read wave_write env input_files output_file fs :
  Forall log_line
    (combine_log (_combine_wav_files wave_read wave_write env input_files output_file fs)).
Proof.
  unfold _combine_wav_files.
  destruct input_files as [|f0 rest0]; [constructor|].
  destruct (filter _ (f0 :: rest0)) as [|first later]; [constructor|].
  destruct (wave_open_read wave_read fs first) as [e|[params frames]];
    [constructor; [severity | constructor]|].
  destruct (open_error env output_file); [constructor; [severity | constructor]|].
  pose proof (write_loop_log wave_read params (<[output_file := []]> fs)
                (first :: later) []) as H.
  destruct (write_loop wave_read params (<[output_file := []]> fs) (first :: later) [])
    as [[err w] l]. simpl in *.
  constructor; [severity | done].
Qed.

(** What the submission loop emits. *)
Lemma submit_loop_emitted caller_stop chunks : ∀ n c,
  ∃ extra, emitted (submit_loop caller_stop chunks n c).2 = emitted c ++ extra
           ∧ Forall log_line extra.
Proof.
  induction chunks as [|chunk rest IH]; intros n c; simpl.
  - exists []. by rewrite app_nil_r.
  - destruct (stop_set c || flag_at caller_stop (reads c)); simpl.
    + eexists. split; [reflexivity|]. constructor; [severity | constructor].
    + edestruct IH as (extra & He & Hf). exists extra. split; [exact He | exact Hf].
Qed.

(** What the loop over the futures emits: log lines and progress updates,
    and at most one critical error, with which it sets the stop flag. *)
Lemma collect_loop_emitted caller_stop total futures order : ∀ c,
  ∃ extra,
    emitted (collect_loop caller_stop total futures order c) = emitted c ++ extra
    ∧ Forall from_loop extra
    ∧ ((criticals extra = 0
        ∧ stop_set (collect_loop caller_stop total futures order c) = stop_set c)
       ∨ (criticals extra = 1
          ∧ stop_set (collect_loop caller_stop total futures order c) = true)).
Proof.
  assert (Hstep : ∀ (c c' : collector) (x : signal) (res : collector),
            emitted c' = emitted c ++ [x] → stop_set c' = stop_set c →
            from_loop x → is_critical x = false →
            (∃ extra, emitted res = emitted c' ++ extra ∧ Forall from_loop extra
               ∧ ((criticals extra = 0 ∧ stop_set res = stop_set c')
                  ∨ (criticals extra = 1 ∧ stop_set res = true))) →
            ∃ extra, emitted res = emitted c ++ extra ∧ Forall from_loop extra
               ∧ ((criticals extra = 0 ∧ stop_set res = stop_set c)
                  ∨ (criticals extra = 1 ∧ stop_set res = true))).
  { intros c c' x res He Hs Hx Hcrit (extra & Hres & Hall & Hc).
    exists (x :: extra). split; [by rewrite Hres, He, <- app_assoc|].
    split; [by constructor|].
    unfold criticals in *. simpl. rewrite Hcrit. by rewrite <- Hs. }
  assert (Hskip : ∀ (c c' res : collector),
            emitted c' = emitted c → stop_set c' = stop_set c →
            (∃ extra, emitted res = emitted c' ++ extra ∧ Forall from_loop extra
               ∧ ((criticals extra = 0 ∧ stop_set res = stop_set c')
                  ∨ (criticals extra = 1 ∧ stop_set res = true))) →
            ∃ extra, emitted res = emitted c ++ extra ∧ Forall from_loop extra
               ∧ ((criticals extra = 0 ∧ stop_set res = stop_set c)
                  ∨ (criticals extra = 1 ∧ stop_set res = true))).
  { intros c c' res He Hs (extra & Hres & Hall & Hc).
    exists extra. by rewrite <- He, <- Hs. }
  induction order as [|i rest IH]; intros c.
  - exists []. simpl. rewrite app_nil_r. split; [done|]. split; [constructor | by left].
  - cbn [collect_loop]. unfold read_stop.
    destruct (stop_set c || flag_at caller_stop (reads c)).
    { eapply Hstep; [| | | |apply IH]; try done; severity. }
    destruct (futures !! i) as [[r| |exc]|]; cbn [stop_set reads].
    + destruct (path_truthy r) as [p|].
      * eapply Hstep; [| | | |apply IH]; try done; severity.
      * destruct (negb _).
        -- eexists [_; _]. split; [cbn; by rewrite <- app_assoc|].
           split; [repeat constructor; severity|]. by right.
        -- eapply Hskip; [| |apply IH]; done.
    + eapply Hstep; [| | | |apply IH]; try done; severity.
    + destruct (negb _).
      * eexists [_; _]. split; [cbn; by rewrite <- app_assoc|].
        split; [repeat constructor; severity|]. by right.
      * eexists [_]. split; [reflexivity|].
        split; [repeat constructor; severity|]. by left.
    + eapply Hskip; [| |apply IH]; done.
Qed.

Lemma log_lines_only l s : Forall log_line l → s ∈ l → log_line s.
Proof. rewrite Forall_forall. auto. Qed.

Lemma log_lines_from_loop l : Forall log_line l → Forall from_loop l.
Proof. intros H. eapply Forall_impl; [exact H | apply log_line_from_loop]. Qed.

Variable wave_read : list Byte.byte → string + wave_params * list Byte.byte.
Variable wave_write : wave_params → list Byte.byte → list Byte.byte.
Variable env : os_env.

(** What post-processing adds to the signals and does to the disk. *)
Lemma post_process_signals s w c fs logs :
  let r := post_process wave_read wave_write env s w c fs logs in
  let temp_files := ordered_temp_files (results c) in
  let cr := _combine_wav_files wave_read wave_write env temp_files
              (final_output_filepath w) fs in
  ∃ body,
    run_signals r = emitted c ++ body ++ [synthesis_finished]
    ∧ Forall (λ x, from_loop x ∨ x = final_output_ready (final_output_filepath w)) body
    ∧ (criticals body ≤ 1)%nat
    ∧ (stop_set c = true → criticals body = 0)
    ∧ (∀ cur tot msg, progress_update cur tot msg ∈ body →
         cur = length (text_chunks w) + 1 ∧ tot = length (text_chunks w) + 1)
    ∧ (final_output_ready (final_output_filepath w) ∈ body →
         raised cr = None
         ∧ final_fs r = (_cleanup_temp_files env temp_files (fs_combined cr)).1)
    ∧ (final_fs r = (_cleanup_temp_files env (results c).*2 fs).1
       ∨ final_fs r = (_cleanup_temp_files env temp_files fs).1
       ∨ final_fs r = (_cleanup_temp_files env temp_files (fs_combined cr)).1).
Proof.
  intros r temp_files cr. subst r. unfold post_process. fold temp_files. fold cr.
  unfold read_stop. cbn [fst snd].
  destruct (stop_set c || flag_at (caller_stop s) (reads c)
            || bool_decide (length (results c) < length (text_chunks w))%nat) eqn:Hgave.
  - (* the run gives up *)
    pose proof (cleanup_log env (results c).*2 fs) as Hl.
    destruct (_cleanup_temp_files env (results c).*2 fs) as [fs' l]. simpl in *.
    exists (log_message "Synthesis aborted or failed before completion." WARNING :: l).
    split; [by rewrite <- !app_assoc|].
    split; [constructor; [left; severity|];
            eapply Forall_impl; [exact Hl|]; intros x Hx; left;
            by apply log_line_from_loop|].
    assert (Hc : criticals (log_message "Synthesis aborted or failed before completion."
                              WARNING :: l) = 0).
    { apply log_lines_no_critical. constructor; [severity | done]. }
    split; [lia|]. split; [done|]. split.
    + intros cur tot msg [?|Hin]%elem_of_cons; [done|]. by destruct (log_lines_only _ _ Hl Hin).
    + split; [|by left].
      intros [?|Hin]%elem_of_cons; [done|]. by destruct (log_lines_only _ _ Hl Hin).
  - apply orb_false_iff in Hgave as [Hstop _].
    apply orb_false_iff in Hstop as [Hset _].
    set (intro := [progress_update (length (text_chunks w) + 1)
                     (length (text_chunks w) + 1) "Combining audio chunks...";
                   log_message "All chunks synthesized successfully. Combining audio..."
                     INFO]).
    set (report := match raised cr with
                   | Some e =>
                       [log_message ("Error combining audio files: " +:+ e) CRITICAL;
                        critical_error ("Error combining audio files: " +:+ e)]
                   | None =>
                       [log_message ("Successfully combined audio to "
                                     +:+ final_output_filepath w) INFO;
                        final_output_ready (final_output_filepath w)]
                   end).
    assert (Hcombine : ∀ created : list signal, Forall log_line created →
              ∃ body,
                (emitted c ++ intro ++ created) ++ combine_log cr ++ report
                  ++ (_cleanup_temp_files env temp_files (fs_combined cr)).2
                  ++ [synthesis_finished]
                = emitted c ++ body ++ [synthesis_finished]
                ∧ Forall (λ x, from_loop x
                               ∨ x = final_output_ready (final_output_filepath w)) body
                ∧ (criticals body ≤ 1)%nat
                ∧ (stop_set c = true → criticals body = 0)
                ∧ (∀ cur tot msg, progress_update cur tot msg ∈ body →
                     cur = length (text_chunks w) + 1
                     ∧ tot = length (text_chunks w) + 1)
                ∧ (final_output_ready (final_output_filepath w) ∈ body →
                     raised cr = None)).
    { intros created Hcreated.
      pose proof (combine_log_lines wave_read wave_write env temp_files
                    (final_output_filepath w) fs) as Hcl. fold cr in Hcl.
      pose proof (cleanup_log env temp_files (fs_combined cr)) as Hl.
      set (l := (_cleanup_temp_files env temp_files (fs_combined cr)).2) in *.
      exists (intro ++ created ++ combine_log cr ++ report ++ l).
      split; [by rewrite <- !app_assoc|].
      split.
      { repeat (apply Forall_app; split).
        - constructor; [by left|]. constructor; [left; severity | constructor].
        - eapply Forall_impl; [exact Hcreated|]. intros x Hx. left.
          by apply log_line_from_loop.
        - eapply Forall_impl; [exact Hcl|]. intros x Hx. left.
          by apply log_line_from_loop.
        - subst report. destruct (raised cr) as [e|].
          + constructor; [left; severity|]. constructor; [by left | constructor].
          + constructor; [left; severity|]. constructor; [by right | constructor].
        - eapply Forall_impl; [exact Hl|]. intros x Hx. left.
          by apply log_line_from_loop. }
      split.
      { rewrite !criticals_app, (log_lines_no_critical created),
          (log_lines_no_critical (combine_log cr)), (log_lines_no_critical l) by done.
        subst report. destruct (raised cr); simpl; lia. }
      split; [by rewrite Hset|]. split.
      - intros cur tot msg Hin.
        apply elem_of_app in Hin as [Hin|Hin].
        { apply elem_of_cons in Hin as [[= -> -> ->]|Hin]; [done|].
          apply list_elem_of_singleton in Hin. done. }
        apply elem_of_app in Hin as [Hin|Hin]; [by destruct (log_lines_only _ _ Hcreated Hin)|].
        apply elem_of_app in Hin as [Hin|Hin]; [by destruct (log_lines_only _ _ Hcl Hin)|].
        apply elem_of_app in Hin as [Hin|Hin]; [|by destruct (log_lines_only _ _ Hl Hin)].
        subst report. destruct (raised cr);
          repeat (apply elem_of_cons in Hin as [?|Hin]; [done|]);
          by apply elem_of_nil in Hin.
      - intros Hin.
        apply elem_of_app in Hin as [Hin|Hin].
        { repeat (apply elem_of_cons in Hin as [?|Hin]; [done|]).
          by apply elem_of_nil in Hin. }
        apply elem_of_app in Hin as [Hin|Hin]; [by destruct (log_lines_only _ _ Hcreated Hin)|].
        apply elem_of_app in Hin as [Hin|Hin]; [by destruct (log_lines_only _ _ Hcl Hin)|].
        apply elem_of_app in Hin as [Hin|Hin]; [|by destruct (log_lines_only _ _ Hl Hin)].
        subst report. destruct (raised cr); [|done].
        repeat (apply elem_of_cons in Hin as [?|Hin]; [done|]).
        by apply elem_of_nil in Hin. }
    destruct (negb (String.eqb (output_dir s) "") && negb (output_dir_exists s)).
    + destruct (makedirs_error s) as [e|].
      * (* the output directory cannot be made *)
        pose proof (cleanup_log env temp_files fs) as Hl.
        destruct (_cleanup_temp_files env temp_files fs) as [fs' l]. simpl in *.
        exists (intro ++ [log_message ("Error creating final output directory "
                                       +:+ output_dir s +:+ ": " +:+ e) CRITICAL;
                          critical_error ("Error creating final output directory "
                                          +:+ output_dir s +:+ ": " +:+ e)] ++ l).
        split; [cbn; by rewrite <- !app_assoc|].
        split.
        { repeat (apply Forall_app; split).
          - constructor; [by left|]. constructor; [left; severity | constructor].
          - constructor; [left; severity|]. constructor; [by left | constructor].
          - eapply Forall_impl; [exact Hl|]. intros x Hx. left.
            by apply log_line_from_loop. }
        split; [rewrite !criticals_app, (log_lines_no_critical l) by done; simpl; lia|].
        split; [by rewrite Hset|]. split; [|split; [|right; by left]].
        -- intros cur tot msg Hin.
           apply elem_of_app in Hin as [Hin|Hin].
           { apply elem_of_cons in Hin as [[= -> -> ->]|Hin]; [done|].
             apply list_elem_of_singleton in Hin. done. }
           apply elem_of_app in Hin as [Hin|Hin]; [|by destruct (log_lines_only _ _ Hl Hin)].
           repeat (apply elem_of_cons in Hin as [?|Hin]; [done|]).
           by apply elem_of_nil in Hin.
        -- intros Hin.
           apply elem_of_app in Hin as [Hin|Hin].
           { repeat (apply elem_of_cons in Hin as [?|Hin]; [done|]).
             by apply elem_of_nil in Hin. }
           apply elem_of_app in Hin as [Hin|Hin]; [|by destruct (log_lines_only _ _ Hl Hin)].
           repeat (apply elem_of_cons in Hin as [?|Hin]; [done|]).
           by apply elem_of_nil in Hin.
      * destruct (Hcombine [log_message ("Created output directory: " +:+ output_dir s)
                              INFO]) as (body & Hb & H1 & H2 & H3 & H4 & H5).
        { constructor; [severity | constructor]. }
        destruct (_cleanup_temp_files env temp_files (fs_combined cr)) as [fs' l] eqn:Hcl.
        simpl in *. exists body.
        split; [rewrite <- Hb; cbn; by rewrite <- !app_assoc|].
        split; [done|]. split; [done|]. split; [done|]. split; [done|].
        split; [|by right; right]. intros Hin. split; [by apply H5 | done].
    + destruct (Hcombine []) as (body & Hb & H1 & H2 & H3 & H4 & H5); [constructor|].
      destruct (_cleanup_temp_files env temp_files (fs_combined cr)) as [fs' l] eqn:Hcl.
      simpl in *. exists body.
      split; [rewrite <- Hb; cbn; by rewrite <- !app_assoc|].
      split; [done|]. split; [done|]. split; [done|]. split; [done|].
      split; [|by right; right]. intros Hin. split; [by apply H5 | done].
Qed.

End RunSignals.

(** ** The run as a whole *)

Section WholeRun.

Import Worker Notions.

Variable wave_read : list Byte.byte → string + wave_params * list Byte.byte.
Variable wave_write : wave_params → list Byte.byte → list Byte.byte.
Variable env : os_env.

Lemma dict_lookup_values k v (d : list (nat * string)) :
  dict_lookup k d = Some v → v ∈ d.*2.
Proof.
  induction d as [|[k' v'] rest IH]; [done|]. simpl.
  destruct (decide (k' = k)); [intros [= ->]; by left | intros H; right; by apply IH].
Qed.

Lemma ordered_temp_files_values (results : list (nat * string)) f :
  f ∈ ordered_temp_files results → f ∈ results.*2.
Proof.
  unfold ordered_temp_files. intros (k & _ & Hk)%list_elem_of_omap.
  by apply (dict_lookup_values k).
Qed.

(** Every path of the dict is the temporary path of a chunk. *)
Lemma collected_values_are_temp_paths s w fs v :
  v ∈ (results (collected env s w fs)).*2 →
  ∃ n, v = temp_output_path (temp_base_name w) n.
Proof.
  intros [[k v'] [-> Hkv]]%list_elem_of_fmap. simpl.
  destruct (collected_sound env s w fs) as [_ Hin]. apply Hin in Hkv.
  unfold tasks_done in Hkv. apply run_tasks_result_path in Hkv. eauto.
Qed.

(** A stitcher that raises nothing has written the output file. *)
Lemma combine_ok_writes input_files output_file fs :
  raised (_combine_wav_files wave_read wave_write env input_files output_file fs) = None →
  ∃ params frames,
    fs_combined (_combine_wav_files wave_read wave_write env input_files output_file fs)
      !! output_file = Some (wave_write params frames).
Proof.
  unfold _combine_wav_files. destruct input_files as [|f0 rest]; [done|].
  cbv zeta. destruct (filter _ (f0 :: rest)) as [|first valid]; [done|].
  destruct (wave_open_read wave_read fs first) as [e|[params frames0]]; [done|].
  destruct (open_error env output_file); [done|].
  destruct (write_loop wave_read params _ _ _) as [[err written] l]. simpl.
  intros _. rewrite lookup_insert_eq. eauto.
Qed.

(** The signals of a run: [synthesis_started], then log lines, progress
    updates, at most one critical error and at most the ready signal for
    the output path, then [synthesis_finished]. *)
Lemma run_shape s w fs :
  let r := run wave_read wave_write env s w fs in
  let c := collected env s w fs in
  let temp_files := ordered_temp_files (results c) in
  let cr := _combine_wav_files wave_read wave_write env temp_files
              (final_output_filepath w) (tasks_done env s w fs).1.2 in
  ∃ mid,
    run_signals r = synthesis_started :: mid ++ [synthesis_finished]
    ∧ Forall (λ x, from_loop x ∨ x = final_output_ready (final_output_filepath w)) mid
    ∧ (criticals mid ≤ 1)%nat
    ∧ (final_output_ready (final_output_filepath w) ∈ mid →
         raised cr = None
         ∧ final_fs r
           = (_cleanup_temp_files env temp_files (fs_combined cr)).1)
    ∧ (final_fs r
         = (_cleanup_temp_files env (results c).*2 (tasks_done env s w fs).1.2).1
       ∨ final_fs r = (_cleanup_temp_files env temp_files (tasks_done env s w fs).1.2).1
       ∨ final_fs r = (_cleanup_temp_files env temp_files (fs_combined cr)).1).
Proof.
  intros r c temp_files cr. subst r. unfold run. fold c.
  destruct (post_process_signals wave_read wave_write env s w c
              (tasks_done env s w fs).1.2 (tasks_done env s w fs).2)
    as (body & Hsig & Hbody & Hcrit & Hstopped & _ & Hready & Hfs).
  fold temp_files in Hready, Hfs. fold cr in Hready, Hfs.
  destruct (submit_loop_emitted (caller_stop s) (text_chunks w) 0 (start_state w))
    as (sub & Hsub & Hsublog).
  destruct (collect_loop_emitted (caller_stop s) (length (text_chunks w))
              (tasks_done env s w fs).1.1 (completion_order s)
              (submit_loop (caller_stop s) (text_chunks w) 0 (start_state w)).2)
    as (col & Hcol & Hcolall & Hcolcrit).
  fold (collected env s w fs) in Hcol, Hcolcrit. fold c in Hcol, Hcolcrit.
  set (starting := log_message ("Starting parallel chunked synthesis for "
                     +:+ pretty (length (text_chunks w)) +:+ " chunks (max_workers="
                     +:+ pretty (max_workers w) +:+ ").") INFO).
  exists (starting :: sub ++ col ++ body).
  split.
  { rewrite Hsig, Hcol, Hsub. cbn. by rewrite <- !app_assoc. }
  split.
  { constructor; [left; unfold starting; cbv [from_loop INFO]; lia|].
    repeat (apply Forall_app; split); [| |done].
    - eapply Forall_impl; [exact Hsublog|]. intros x Hx. left.
      by apply log_line_from_loop.
    - eapply Forall_impl; [exact Hcolall|]. intros x Hx. by left. }
  split.
  { change (starting :: sub ++ col ++ body) with ([starting] ++ sub ++ col ++ body).
    rewrite !criticals_app, (log_lines_no_critical sub) by done.
    change (criticals [starting]) with 0.
    destruct Hcolcrit as [[-> _]|[-> Hset]]; [lia|].
    rewrite (Hstopped Hset). lia. }
  split; [|done].
  intros [?|Hin]%elem_of_cons; [done|].
  apply elem_of_app in Hin as [Hin|Hin];
    [by destruct (log_lines_only _ _ Hsublog Hin)|].
  apply elem_of_app in Hin as [Hin|Hin]; [|by apply Hready].
  rewrite Forall_forall in Hcolall. by destruct (Hcolall _ Hin).
Qed.

End WholeRun.

(** X20: whatever happens, a run emits [synthesis_started] first and
    [synthesis_finished] last, and neither of them in between. *)
Theorem run_starts_and_finishes_once wave_read wave_write env
    (s : Worker.schedule) (w : Worker.worker) (fs : Worker.filesystem) :
  ∃ mid,
    Worker.run_signals (Worker.run wave_read wave_write env s w fs)
    = Worker.synthesis_started :: mid ++ [Worker.synthesis_finished]
    ∧ Forall Notions.in_between mid.
Proof.
  destruct (run_shape wave_read wave_write env s w fs) as (mid & Hsig & Hmid & _).
  exists mid. split; [done|].
  eapply Forall_impl; [exact Hmid|]. intros x [Hx| ->]; [|done].
  by apply from_loop_in_between.
Qed.

(** X21: a run emits at most one critical error. *)
Theorem at_most_one_critical_error wave_read wave_write env
    (s : Worker.schedule) (w : Worker.worker) (fs : Worker.filesystem) :
  (Notions.criticals (Worker.run_signals (Worker.run wave_read wave_write env s w fs))
   ≤ 1)%nat.
Proof.
  destruct (run_shape wave_read wave_write env s w fs) as (mid & -> & _ & Hcrit & _).
  change (Worker.synthesis_started :: mid ++ [Worker.synthesis_finished])
    with ([Worker.synthesis_started] ++ mid ++ [Worker.synthesis_finished]).
  rewrite !criticals_app.
  change (Notions.criticals [Worker.synthesis_started]) with 0.
  change (Notions.criticals [Worker.synthesis_finished]) with 0. lia.
Qed.

(** X22: when a run signals that the final output is ready, the path it
    signals is the output path, and the output file is on the disk when
    the run ends, as the stitcher has written it. *)
Theorem ready_signal_means_output_written wave_read wave_write env
    (s : Worker.schedule) (w : Worker.worker) (fs : Worker.filesystem) p :
  (∀ n, Worker.temp_output_path (Worker.temp_base_name w) n
        ≠ Worker.final_output_filepath w) →
  Worker.final_output_ready p
    ∈ Worker.run_signals (Worker.run wave_read wave_write env s w fs) →
  p = Worker.final_output_filepath w
  ∧ ∃ params frames,
      Worker.final_fs (Worker.run wave_read wave_write env s w fs)
        !! Worker.final_output_filepath w = Some (wave_write params frames).
Proof.
  intros Hout Hin.
  destruct (run_shape wave_read wave_write env s w fs)
    as (mid & Hsig & Hmid & _ & Hready & _).
  rewrite Hsig in Hin. apply elem_of_cons in Hin as [?|Hin]; [done|].
  apply elem_of_app in Hin as [Hin|Hin];
    [|by apply list_elem_of_singleton in Hin].
  assert (Hp : p = Worker.final_output_filepath w).
  { rewrite Forall_forall in Hmid. destruct (Hmid _ Hin) as [?|[= ->]]; done. }
  subst p. split; [done|].
  destruct (Hready Hin) as [Hraised ->].
  destruct (combine_ok_writes wave_read wave_write env _ _ _ Hraised)
    as (params & frames & Hfs).
  exists params, frames. rewrite cleanup_other_files; [done|].
  intros Hf%ordered_temp_files_values.
  apply collected_values_are_temp_paths in Hf as [n Hn]. by apply (Hout n).
Qed.

Lemma ready_signal_means_output_written_witness :
  "out/speech.wav" = Worker.final_output_filepath Sample.three_chunks
  ∧ ∃ params frames,
      Worker.final_fs
        (Worker.run Sample.wave_read Sample.wave_write Sample.os Sample.all_succeed
           Sample.three_chunks ∅)
        !! Worker.final_output_filepath Sample.three_chunks
      = Some (Sample.wave_write params frames).
Proof.
  apply ready_signal_means_output_written.
  - apply (sample_paths_apart "piper_chunk_speech.wav_20250101120000").
  - vm_compute. repeat first [apply list_elem_of_here | apply list_elem_of_further].
Defined.

(** X23: a run changes no file but the output file and its temporary
    files. *)
Theorem run_keeps_other_files wave_read wave_write env
    (s : Worker.schedule) (w : Worker.worker) (fs : Worker.filesystem) q :
  q ≠ Worker.final_output_filepath w →
  (∀ n, Worker.temp_output_path (Worker.temp_base_name w) n ≠ q) →
  Worker.final_fs (Worker.run wave_read wave_write env s w fs) !! q = fs !! q.
Proof.
  intros Hq Htemp.
  destruct (run_shape wave_read wave_write env s w fs) as (mid & _ & _ & _ & _ & Hfs).
  assert (Htasks : (Worker.tasks_done env s w fs).1.2 !! q = fs !! q).
  { unfold Worker.tasks_done. by apply run_tasks_other_files. }
  assert (Hvalues : q ∉ (Worker.results (Worker.collected env s w fs)).*2).
  { intros [n Hn]%collected_values_are_temp_paths. by apply (Htemp n). }
  assert (Hfiles : q ∉ Worker.ordered_temp_files
                         (Worker.results (Worker.collected env s w fs))).
  { intros Hin%ordered_temp_files_values. done. }
  destruct Hfs as [-> |[-> | ->]]; rewrite cleanup_other_files by done; [done..|].
  by rewrite combine_other_files.
Qed.

Lemma run_keeps_other_files_witness :
  Worker.final_fs
    (Worker.run Sample.wave_read Sample.wave_write Sample.os Sample.all_succeed
       Sample.three_chunks Sample.some_files) !! "a.wav"
  = Sample.some_files !! "a.wav".
Proof.
  apply run_keeps_other_files; [done|].
  intros n H. unfold Worker.temp_output_path in H. discriminate H.
Defined.

Section WholeRunMore.

Import Worker Notions.

Variable wave_read : list Byte.byte → string + wave_params * list Byte.byte.
Variable wave_write : wave_params → list Byte.byte → list Byte.byte.
Variable env : os_env.

Ltac levels := cbv [from_loop log_line INFO WARNING ERROR CRITICAL]; lia.

(** The submission loop goes on until the flag is seen. *)
Lemma submit_loop_count caller_stop chunks : ∀ n c,
  stop_set c = false →
  (submit_loop caller_stop chunks n c).1
  = match caller_stop with
    | None => n + length chunks
    | Some t => n + Nat.min (t - reads c) (length chunks)
    end.
Proof.
  induction chunks as [|chunk rest IH]; intros n c Hc; simpl.
  - destruct caller_stop; lia.
  - rewrite Hc. simpl. destruct caller_stop as [t|]; simpl.
    + case_bool_decide; simpl; [lia|]. rewrite IH by done. simpl. lia.
    + rewrite IH by done. simpl. lia.
Qed.

Lemma submit_loop_processed caller_stop chunks : ∀ n c,
  chunks_processed (submit_loop caller_stop chunks n c).2 = chunks_processed c.
Proof.
  induction chunks as [|chunk rest IH]; intros n c; simpl; [done|].
  destruct (stop_set c || flag_at caller_stop (reads c)); simpl; [done|].
  by rewrite IH.
Qed.

(** The signals of a run that gives up: log lines only are added. *)
Lemma post_process_abort_signals s w c fs logs :
  (read_stop (caller_stop s) c).1
  || bool_decide (length (results c) < length (text_chunks w))%nat = true →
  ∃ l,
    run_signals (post_process wave_read wave_write env s w c fs logs)
    = emitted c ++ l ++ [synthesis_finished]
    ∧ Forall log_line l.
Proof.
  intros H. unfold post_process, read_stop in *. simpl in H. rewrite H.
  pose proof (cleanup_log env (results c).*2 fs) as Hlog.
  destruct (_cleanup_temp_files env (results c).*2 fs) as [fs' l]. simpl in *.
  exists (log_message "Synthesis aborted or failed before completion." WARNING :: l).
  split; [by rewrite <- app_assoc|]. constructor; [|done].
  cbv [log_line WARNING]. lia.
Qed.

(** An exception of the stitcher is reported as a critical error. *)
Lemma post_process_reports s w c fs logs e :
  (read_stop (caller_stop s) c).1
  || bool_decide (length (results c) < length (text_chunks w))%nat = false →
  output_dir s = "" ∨ output_dir_exists s = true ∨ makedirs_error s = None →
  raised (_combine_wav_files wave_read wave_write env (ordered_temp_files (results c))
            (final_output_filepath w) fs) = Some e →
  critical_error ("Error combining audio files: " +:+ e)
    ∈ run_signals (post_process wave_read wave_write env s w c fs logs).
Proof.
  intros H Hdir He. unfold post_process, read_stop in *. simpl in H. rewrite H.
  cbv zeta. rewrite He.
  destruct (_cleanup_temp_files env (ordered_temp_files (results c))
              (fs_combined (_combine_wav_files wave_read wave_write env
                 (ordered_temp_files (results c)) (final_output_filepath w) fs)))
    as [fs' l].
  destruct (negb (String.eqb (output_dir s) "") && negb (output_dir_exists s)) eqn:Hd.
  - destruct (makedirs_error s) as [e'|] eqn:He'.
    + exfalso. apply andb_true_iff in Hd as [Hd1 Hd2].
      destruct Hdir as [Hdir|[Hdir|Hdir]]; [|by rewrite Hdir in Hd2|done].
      rewrite Hdir in Hd1. done.
    + cbn [run_signals]. rewrite !elem_of_app, !elem_of_cons. tauto.
  - cbn [run_signals]. rewrite !elem_of_app, !elem_of_cons. tauto.
Qed.

(** The signals of the run before post-processing: [synthesis_started],
    then what the two loops emit. *)
Lemma collected_emitted s w fs :
  ∃ l, emitted (collected env s w fs) = synthesis_started :: l ∧ Forall from_loop l.
Proof.
  unfold collected.
  destruct (submit_loop_emitted (caller_stop s) (text_chunks w) 0 (start_state w))
    as (sub & Hsub & Hsublog).
  destruct (collect_loop_emitted (caller_stop s) (length (text_chunks w))
              (tasks_done env s w fs).1.1 (completion_order s)
              (submit_loop (caller_stop s) (text_chunks w) 0 (start_state w)).2)
    as (col & Hcol & Hcolall & _).
  rewrite Hcol, Hsub. cbn [start_state emitted]. eexists. split; [reflexivity|].
  constructor; [cbv [from_loop INFO]; lia|].
  apply Forall_app. split; [by apply log_lines_from_loop | done].
Qed.

(** The ready signal is emitted only on the way that combines. *)
Lemma run_ready s w fs p :
  final_output_ready p ∈ run_signals (run wave_read wave_write env s w fs) →
  stop_seen env s w fs = false
  ∧ (length (text_chunks w) ≤ length (results (collected env s w fs)))%nat.
Proof.
  intros Hin. unfold stop_seen.
  destruct ((read_stop (caller_stop s) (collected env s w fs)).1
            || bool_decide (length (results (collected env s w fs))
                            < length (text_chunks w))%nat) eqn:Hcond.
  - exfalso.
    destruct (post_process_abort_signals s w _ (tasks_done env s w fs).1.2
                (tasks_done env s w fs).2 Hcond) as (l & Hsig & Hl).
    destruct (collected_emitted s w fs) as (pre & Hpre & Hpreall).
    unfold run in Hin. rewrite Hsig, Hpre in Hin.
    apply elem_of_app in Hin as [Hin|Hin].
    + apply elem_of_cons in Hin as [?|Hin]; [done|].
      rewrite Forall_forall in Hpreall. by destruct (Hpreall _ Hin).
    + apply elem_of_app in Hin as [Hin|Hin].
      * by destruct (log_lines_only _ _ Hl Hin).
      * by apply list_elem_of_singleton in Hin.
  - apply orb_false_iff in Hcond as [Hstop Hlen]. split; [done|].
    apply bool_decide_eq_false in Hlen. lia.
Qed.

Lemma results_length s w fs :
  (length (results (collected env s w fs)) ≤ length (text_chunks w))%nat.
Proof.
  destruct (collected_sound env s w fs) as [Hnd Hin].
  assert (Hsub : (results (collected env s w fs)).*1 ⊆+ seq 0 (length (text_chunks w))).
  { apply NoDup_submseteq; [done|]. intros k [[k' v] [-> Hkv]]%list_elem_of_fmap.
    apply elem_of_seq. apply Hin, lookup_lt_Some in Hkv.
    pose proof (tasks_done_length env s w fs). simpl. lia. }
  apply submseteq_length in Hsub. by rewrite length_fmap, length_seq in Hsub.
Qed.

(** The counter of the progress bar: with each future yielded once, it
    is the size of the dict, and every update of the loop carries the
    counter after its increment. *)
Lemma collect_loop_progress caller_stop total futures order : ∀ c,
  NoDup order → (∀ k, k ∈ order → k ∉ (results c).*1) →
  chunks_processed c = length (results c) →
  let res := collect_loop caller_stop total futures order c in
  chunks_processed res = length (results res)
  ∧ (chunks_processed c ≤ chunks_processed res)%nat
  ∧ ∃ extra,
      emitted res = emitted c ++ extra
      ∧ ∀ cur tot msg, progress_update cur tot msg ∈ extra →
          tot = total + 1 ∧ (chunks_processed c < cur ≤ chunks_processed res)%nat.
Proof.
  assert (Hskip : ∀ (c c' res : collector) (pre : list signal),
            emitted c' = emitted c ++ pre → Forall log_line pre →
            chunks_processed c' = chunks_processed c →
            (chunks_processed res = length (results res)
             ∧ (chunks_processed c' ≤ chunks_processed res)%nat
             ∧ ∃ extra, emitted res = emitted c' ++ extra
                 ∧ ∀ cur tot msg, progress_update cur tot msg ∈ extra →
                     tot = total + 1
                     ∧ (chunks_processed c' < cur ≤ chunks_processed res)%nat) →
            chunks_processed res = length (results res)
            ∧ (chunks_processed c ≤ chunks_processed res)%nat
            ∧ ∃ extra, emitted res = emitted c ++ extra
                ∧ ∀ cur tot msg, progress_update cur tot msg ∈ extra →
                    tot = total + 1
                    ∧ (chunks_processed c < cur ≤ chunks_processed res)%nat).
  { intros c c' res pre He Hpre Hcp (Hlen & Hle & extra & Hres & Hprog).
    rewrite Hcp in *. split; [done|]. split; [done|].
    exists (pre ++ extra). split; [by rewrite Hres, He, <- app_assoc|].
    intros cur tot msg [Hin|Hin]%elem_of_app; [|by apply (Hprog cur tot msg)].
    by destruct (log_lines_only _ _ Hpre Hin). }
  assert (Hdone : ∀ (c res : collector) (pre : list signal),
            emitted res = emitted c ++ pre →
            (∀ cur tot msg, progress_update cur tot msg ∉ pre) →
            chunks_processed res = chunks_processed c →
            results res = results c →
            chunks_processed c = length (results c) →
            chunks_processed res = length (results res)
            ∧ (chunks_processed c ≤ chunks_processed res)%nat
            ∧ ∃ extra, emitted res = emitted c ++ extra
                ∧ ∀ cur tot msg, progress_update cur tot msg ∈ extra →
                    tot = total + 1
                    ∧ (chunks_processed c < cur ≤ chunks_processed res)%nat).
  { intros c res pre He Hpre Hcp Hr Hc. rewrite Hcp, Hr. split; [done|].
    split; [done|]. exists pre. split; [done|].
    intros cur tot msg Hin. by destruct (Hpre cur tot msg). }
  induction order as [|i rest IH]; intros c Hnd Hfresh Hc res; subst res.
  { apply (Hdone c _ []); try done; [by rewrite app_nil_r|].
    intros cur tot msg. apply not_elem_of_nil. }
  apply NoDup_cons in Hnd as [Hi Hnd].
  assert (Hrest : ∀ k, k ∈ rest → k ∉ (results c).*1).
  { intros k Hk. apply Hfresh. by right. }
  cbn [collect_loop]. unfold read_stop.
  destruct (stop_set c || flag_at caller_stop (reads c)).
  { eapply (Hskip c _ _ [_]); [| | |apply IH]; try done.
    constructor; [levels | constructor]. }
  destruct (futures !! i) as [[r| |exc]|]; cbn [stop_set reads].
  - destruct (path_truthy r) as [p|].
    + match goal with
      | |- context [collect_loop _ _ _ rest ?c'] =>
          destruct (IH c') as (Hlen & Hle & extra & Hres & Hprog)
      end.
      * done.
      * cbn [record_success results]. rewrite dict_set_keys.
        rewrite decide_False by (apply Hfresh; by left).
        intros k Hk [Hin|Hin%list_elem_of_singleton]%elem_of_app.
        -- by apply (Hrest k).
        -- by subst.
      * cbn [record_success results chunks_processed].
        rewrite dict_set_fresh by (apply Hfresh; by left).
        rewrite length_app. simpl. lia.
      * cbn [record_success chunks_processed emitted] in *.
        split; [done|]. split; [lia|].
        eexists (_ :: extra). split; [by rewrite Hres, <- app_assoc|].
        intros cur tot msg [Heq|Hin]%elem_of_cons.
        -- injection Heq as -> -> _. split; [done | lia].
        -- destruct (Hprog cur tot msg Hin). split; [done | lia].
    + destruct (negb _).
      * eapply (Hdone c _ [_; _]); [cbn; by rewrite <- app_assoc| |done..].
        intros cur tot msg [?|[?|?%elem_of_nil]%elem_of_cons]%elem_of_cons; done.
      * eapply (Hskip c _ _ []); [| | |apply IH]; try done.
        by rewrite app_nil_r.
  - eapply (Hskip c _ _ [_]); [| | |apply IH]; try done.
    constructor; [levels | constructor].
  - destruct (negb _).
    + eapply (Hdone c _ [_; _]); [cbn; by rewrite <- app_assoc| |done..].
      intros cur tot msg [?|[?|?%elem_of_nil]%elem_of_cons]%elem_of_cons; done.
    + eapply (Hdone c _ [_]); [reflexivity| |done..].
      intros cur tot msg [?|?%elem_of_nil]%elem_of_cons; done.
  - eapply (Hskip c _ _ []); [| | |apply IH]; try done.
    by rewrite app_nil_r.
Qed.

(** With no future the loop over [as_completed] records nothing. *)
Lemma collect_loop_no_futures caller_stop total order : ∀ c,
  results (collect_loop caller_stop total [] order c) = results c
  ∧ stop_set (collect_loop caller_stop total [] order c) = stop_set c.
Proof.
  induction order as [|i rest IH]; intros c; [done|].
  cbn [collect_loop]. unfold read_stop.
  destruct (stop_set c || flag_at caller_stop (reads c)).
  - by destruct (IH (emit {| results := results c;
                             chunks_processed := chunks_processed c;
                             stop_set := stop_set c; reads := S (reads c);
                             emitted := emitted c |}
                       (log_message "Stop requested, cancelling pending tasks..."
                          WARNING))).
  - rewrite lookup_nil.
    match goal with
    | |- context [collect_loop _ _ _ rest ?c'] => by destruct (IH c')
    end.
Qed.

End WholeRunMore.

(** X24: the run hands the chunks to the pool in order until it sees the
    stop flag: with no stop every chunk gets a task, and when the flag is
    seen from the [t]-th reading of the submission loop on, only the
    first [t] chunks do. *)
Theorem tasks_submitted_until_stop env
    (s : Worker.schedule) (w : Worker.worker) (fs : Worker.filesystem) :
  length (Worker.tasks_done env s w fs).1.1
  = match Worker.caller_stop s with
    | None => length (Worker.text_chunks w)
    | Some t => Nat.min t (length (Worker.text_chunks w))
    end.
Proof.
  unfold Worker.tasks_done. rewrite run_tasks_length, length_take.
  unfold Worker.submitted. rewrite submit_loop_count by done.
  cbn [Worker.start_state Worker.reads]. destruct (Worker.caller_stop s); lia.
Qed.

(** X25: a run signals that the final output is ready only if every
    chunk produced a Success result and no stop is seen when the loop
    over the futures is left. *)
Theorem ready_signal_only_if_all_chunks_succeed wave_read wave_write env
    (s : Worker.schedule) (w : Worker.worker) (fs : Worker.filesystem) p :
  Worker.final_output_ready p
    ∈ Worker.run_signals (Worker.run wave_read wave_write env s w fs) →
  (∀ i, (i < length (Worker.text_chunks w))%nat → Worker.chunk_succeeded env s w fs i)
  ∧ Worker.stop_seen env s w fs = false.
Proof.
  intros [Hstop Hlen]%run_ready. split; [|done].
  intros i Hi.
  apply (full_results_cover _ (Worker.collected env s w fs)
           (length (Worker.text_chunks w)));
    [apply collected_sound | apply tasks_done_length | done | done].
Qed.

Lemma ready_signal_only_if_all_chunks_succeed_witness :
  (∀ i, (i < length (Worker.text_chunks Sample.three_chunks))%nat →
     Worker.chunk_succeeded Sample.os Sample.all_succeed Sample.three_chunks ∅ i)
  ∧ Worker.stop_seen Sample.os Sample.all_succeed Sample.three_chunks ∅ = false.
Proof.
  apply (ready_signal_only_if_all_chunks_succeed Sample.wave_read Sample.wave_write
           Sample.os Sample.all_succeed Sample.three_chunks ∅ "out/speech.wav").
  vm_compute. repeat first [apply list_elem_of_here | apply list_elem_of_further].
Defined.

(** X26: when every fetch of a run succeeds and no stop is requested,
    every temporary file that the operating system lets the run remove is
    gone when the run ends, whether or not the output directory could be
    made and the audio combined. *)
Theorem successful_run_deletes_temp_files wave_read wave_write env
    (s : Worker.schedule) (w : Worker.worker) (fs : Worker.filesystem)
    (bodies : nat → list Byte.byte) :
  let N := length (Worker.text_chunks w) in
  Worker.caller_stop s = None →
  (∀ i chunk, Worker.text_chunks w !! i = Some chunk →
     Worker.fetch_succeeds env w (Worker.fates s) i chunk (bodies i)) →
  Worker.completion_order s ≡ₚ seq 0 N →
  ∀ k, (k < N)%nat →
    Worker.remove_error env (Worker.chunk_temp_path w k) = None →
    Worker.final_fs (Worker.run wave_read wave_write env s w fs)
      !! Worker.chunk_temp_path w k = None.
Proof.
  intros N Hstop Hfetch Horder k Hk Hrm.
  destruct (all_collected env s w fs bodies Hstop Hfetch Horder) as [Hres _].
  destruct (run_shape wave_read wave_write env s w fs) as (mid & _ & _ & _ & _ & Hfs).
  rewrite Hres in Hfs.
  rewrite (ordered_temp_files_permutation (Worker.chunk_temp_path w) _ N Horder) in Hfs.
  assert (Hseq : Worker.chunk_temp_path w k ∈ map (Worker.chunk_temp_path w) (seq 0 N)).
  { apply list_elem_of_fmap. exists k. split; [done|]. apply elem_of_seq. lia. }
  destruct Hfs as [-> |[-> | ->]]; apply cleanup_deletes; try done.
  apply list_elem_of_fmap. exists (k, Worker.chunk_temp_path w k). split; [done|].
  apply (list_elem_of_fmap_2 (λ k, (k, Worker.chunk_temp_path w k))).
  rewrite Horder. apply elem_of_seq. lia.
Qed.

Lemma successful_run_deletes_temp_files_witness :
  Worker.final_fs
    (Worker.run Sample.wave_read Sample.wave_write Sample.os Sample.all_succeed
       Sample.three_chunks ∅)
    !! Worker.chunk_temp_path Sample.three_chunks 1 = None.
Proof.
  refine (successful_run_deletes_temp_files Sample.wave_read Sample.wave_write
            Sample.os Sample.all_succeed Sample.three_chunks ∅ Sample.body
            _ _ _ 1 _ _).
  - reflexivity.
  - intros i chunk _. exists (λ _, Sample.answers (Sample.body i)). eexists.
    repeat split; done.
  - vm_compute. eapply perm_trans; [apply perm_swap | apply perm_skip, perm_swap].
  - vm_compute. lia.
  - reflexivity.
Defined.

(** X27: a run over a text that has no chunk makes no request and leaves
    every file as it was; it never signals that the output is ready, and
    when no stop is requested and the output directory is there or can be
    made, it reports the stitcher's complaint about having no input as a
    critical error. *)
Theorem run_without_chunks wave_read wave_write env
    (s : Worker.schedule) (w : Worker.worker) (fs : Worker.filesystem) :
  Worker.text_chunks w = [] →
  let r := Worker.run wave_read wave_write env s w fs in
  Worker.final_fs r = fs
  ∧ Worker.task_logs r = []
  ∧ (∀ p, Worker.final_output_ready p ∉ Worker.run_signals r)
  ∧ (Worker.caller_stop s = None →
     Worker.output_dir s = "" ∨ Worker.output_dir_exists s = true
     ∨ Worker.makedirs_error s = None →
     Worker.critical_error
       "Error combining audio files: No input files provided for combining."
       ∈ Worker.run_signals r).
Proof.
  intros Hnone r.
  assert (Htasks : Worker.tasks_done env s w fs = ([], fs, [])).
  { unfold Worker.tasks_done. by rewrite Hnone, take_nil. }
  assert (Hcol : Worker.results (Worker.collected env s w fs) = []
                 ∧ Worker.stop_set (Worker.collected env s w fs) = false).
  { unfold Worker.collected. rewrite Htasks. cbn [fst].
    destruct (collect_loop_no_futures (Worker.caller_stop s)
                (length (Worker.text_chunks w)) (Worker.completion_order s)
                (Worker.submit_loop (Worker.caller_stop s) (Worker.text_chunks w) 0
                   (Worker.start_state w)).2) as [-> ->].
    by rewrite Hnone. }
  destruct Hcol as [Hres Hstop].
  destruct (run_shape wave_read wave_write env s w fs)
    as (mid & Hsig & Hmid & _ & Hready & Hfs).
  rewrite Hres, Htasks in Hfs, Hready. cbn in Hfs, Hready.
  split; [by destruct Hfs as [?|[?|?]]|].
  split.
  { subst r. unfold Worker.run, Worker.post_process. rewrite Htasks.
    repeat (case_match; try done). }
  split.
  { intros p Hin. fold r in Hsig. rewrite Hsig in Hin.
    apply elem_of_cons in Hin as [?|Hin]; [done|].
    apply elem_of_app in Hin as [Hin|Hin];
      [|by apply list_elem_of_singleton in Hin].
    rewrite Forall_forall in Hmid. destruct (Hmid _ Hin) as [?|[= ->]]; [done|].
    by destruct (Hready Hin). }
  intros Hcaller Hdir. subst r. unfold Worker.run.
  apply post_process_reports; [|done|by rewrite Hres].
  unfold Worker.read_stop. cbn [fst]. rewrite Hstop, Hcaller, Hres, Hnone. done.
Qed.

Lemma run_without_chunks_witness :
  let r := Worker.run Sample.wave_read Sample.wave_write Sample.os Sample.all_succeed
             Cases.no_chunks Sample.some_files in
  Worker.final_fs r = Sample.some_files
  ∧ Worker.task_logs r = []
  ∧ (∀ p, Worker.final_output_ready p ∉ Worker.run_signals r)
  ∧ (Worker.caller_stop Sample.all_succeed = None →
     Worker.output_dir Sample.all_succeed = ""
     ∨ Worker.output_dir_exists Sample.all_succeed = true
     ∨ Worker.makedirs_error Sample.all_succeed = None →
     Worker.critical_error
       "Error combining audio files: No input files provided for combining."
       ∈ Worker.run_signals r).
Proof.
  apply (run_without_chunks Sample.wave_read Sample.wave_write Sample.os
           Sample.all_succeed Cases.no_chunks Sample.some_files).
  reflexivity.
Defined.

(** X28: with every future yielded once, each progress update of a run
    of [N] chunks has [N + 1] as its maximum and a value from 1 to that
    maximum. *)
Theorem progress_within_bounds wave_read wave_write env
    (s : Worker.schedule) (w : Worker.worker) (fs : Worker.filesystem)
    cur tot msg :
  NoDup (Worker.completion_order s) →
  Worker.progress_update cur tot msg
    ∈ Worker.run_signals (Worker.run wave_read wave_write env s w fs) →
  tot = length (Worker.text_chunks w) + 1 ∧ (1 ≤ cur ≤ tot)%nat.
Proof.
  intros Hnd Hin. unfold Worker.run in Hin.
  destruct (post_process_signals wave_read wave_write env s w
              (Worker.collected env s w fs) (Worker.tasks_done env s w fs).1.2
              (Worker.tasks_done env s w fs).2)
    as (body & Hsig & _ & _ & _ & Hbody & _).
  rewrite Hsig in Hin. clear Hsig.
  pose proof (results_length env s w fs) as Hlen.
  destruct (submit_loop_results (Worker.caller_stop s) (Worker.text_chunks w) 0
              (Worker.start_state w)) as (Hres0 & _ & _).
  pose proof (submit_loop_processed (Worker.caller_stop s) (Worker.text_chunks w) 0
                (Worker.start_state w)) as Hcp0.
  destruct (submit_loop_emitted (Worker.caller_stop s) (Worker.text_chunks w) 0
              (Worker.start_state w)) as (sub & Hsub & Hsublog).
  destruct (collect_loop_progress (Worker.caller_stop s)
              (length (Worker.text_chunks w)) (Worker.tasks_done env s w fs).1.1
              (Worker.completion_order s)
              (Worker.submit_loop (Worker.caller_stop s) (Worker.text_chunks w) 0
                 (Worker.start_state w)).2) as (Hcp & _ & col & Hcol & Hprog).
  { done. }
  { intros k _. rewrite Hres0. apply not_elem_of_nil. }
  { by rewrite Hcp0, Hres0. }
  fold (Worker.collected env s w fs) in Hcp, Hcol, Hprog.
  rewrite Hcol, Hsub in Hin. cbn [Worker.start_state Worker.emitted] in Hin.
  rewrite !elem_of_app, !elem_of_cons in Hin.
  destruct Hin as [[[[?|[?|?%elem_of_nil]]|Hin]|Hin]|[Hin|Hin]]; try done.
  - by destruct (log_lines_only _ _ Hsublog Hin).
  - destruct (Hprog _ _ _ Hin) as [-> Hcur]. split; [done|]. lia.
  - destruct (Hbody _ _ _ Hin) as [-> ->]. lia.
  - by destruct Hin as [?|?%elem_of_nil].
Qed.

Lemma progress_within_bounds_witness :
  4 = length (Worker.text_chunks Sample.three_chunks) + 1 ∧ (1 ≤ 2 ≤ 4)%nat.
Proof.
  apply (progress_within_bounds Sample.wave_read Sample.wave_write Sample.os
           Sample.all_succeed Sample.three_chunks ∅ 2 4 "Completed chunk 2/3").
  - apply (bool_decide_unpack (NoDup [2; 0; 1])). vm_compute. exact I.
  - vm_compute. repeat first [apply list_elem_of_here | apply list_elem_of_further].
Defined.

Section FailureReported.

Import Worker Notions.

(** Without a stop of the caller, the loop over the futures sets the
    flag itself once it comes to a future that holds no path or an
    exception. *)
Lemma collect_loop_reports total futures i order : ∀ c,
  stop_set c = false → i ∈ order →
  (∃ r, futures !! i = Some (Result r) ∧ path_truthy r = None)
  ∨ (∃ e, futures !! i = Some (Exception_ e)) →
  stop_set (collect_loop None total futures order c) = true.
Proof.
  intros c Hc Hi Hfail. revert c Hc.
  induction order as [|j rest IH]; intros c Hc; [by apply elem_of_nil in Hi|].
  cbn [collect_loop]. unfold read_stop. rewrite Hc. cbn [flag_at orb].
  destruct (futures !! j) as [[r| |exc]|] eqn:Hj; cbn [stop_set reads].
  - destruct (path_truthy r) as [p|] eqn:Hp; [|done].
    apply elem_of_cons in Hi as [->|Hi]; [|by apply IH].
    destruct Hfail as [(r' & Hr' & Hnone)|(e & He)]; congruence.
  - apply elem_of_cons in Hi as [->|Hi]; [|by apply IH].
    destruct Hfail as [(r' & Hr' & Hnone)|(e & He)]; congruence.
  - done.
  - apply elem_of_cons in Hi as [->|Hi]; [|by apply IH].
    destruct Hfail as [(r' & Hr' & Hnone)|(e & He)]; congruence.
Qed.

End FailureReported.

(** X29: when no stop is requested and the loop over the futures is given
    one that holds no path or an exception, the run reports exactly one
    critical error. *)
Theorem failed_chunk_is_reported wave_read wave_write env
    (s : Worker.schedule) (w : Worker.worker) (fs : Worker.filesystem) i :
  Worker.caller_stop s = None →
  i ∈ Worker.completion_order s →
  (∃ r, (Worker.tasks_done env s w fs).1.1 !! i = Some (Worker.Result r)
        ∧ Worker.path_truthy r = None)
  ∨ (∃ e, (Worker.tasks_done env s w fs).1.1 !! i = Some (Worker.Exception_ e)) →
  Notions.criticals (Worker.run_signals (Worker.run wave_read wave_write env s w fs))
  = 1.
Proof.
  intros Hcaller Hi Hfail. unfold Worker.run.
  destruct (post_process_signals wave_read wave_write env s w
              (Worker.collected env s w fs) (Worker.tasks_done env s w fs).1.2
              (Worker.tasks_done env s w fs).2)
    as (body & -> & _ & _ & Hstopped & _).
  destruct (submit_loop_results (Worker.caller_stop s) (Worker.text_chunks w) 0
              (Worker.start_state w)) as (_ & Hstop0 & _).
  destruct (submit_loop_emitted (Worker.caller_stop s) (Worker.text_chunks w) 0
              (Worker.start_state w)) as (sub & Hsub & Hsublog).
  destruct (collect_loop_emitted (Worker.caller_stop s)
              (length (Worker.text_chunks w)) (Worker.tasks_done env s w fs).1.1
              (Worker.completion_order s)
              (Worker.submit_loop (Worker.caller_stop s) (Worker.text_chunks w) 0
                 (Worker.start_state w)).2) as (col & Hcol & _ & Hcolcrit).
  assert (Hset : Worker.stop_set (Worker.collected env s w fs) = true).
  { unfold Worker.collected. rewrite Hcaller.
    apply (collect_loop_reports _ _ i); [|done..].
    rewrite Hcaller in Hstop0. by rewrite Hstop0. }
  fold (Worker.collected env s w fs) in Hcol, Hcolcrit.
  destruct Hcolcrit as [[_ Heq]|[Hone _]].
  { rewrite Hset, Hstop0 in Heq. done. }
  rewrite Hcol, Hsub, !criticals_app, Hone, (Hstopped Hset),
    (log_lines_no_critical sub) by done.
  reflexivity.
Qed.

Lemma failed_chunk_is_reported_witness :
  Notions.criticals
    (Worker.run_signals
       (Worker.run Sample.wave_read Sample.wave_write Sample.os Sample.second_fails
          Sample.three_chunks ∅))
  = 1.
Proof.
  apply (failed_chunk_is_reported Sample.wave_read Sample.wave_write Sample.os
           Sample.second_fails Sample.three_chunks ∅ 1).
  - reflexivity.
  - vm_compute. repeat first [apply list_elem_of_here | apply list_elem_of_further].
  - left. exists None. split; reflexivity.
Defined.
